(** * Plant assistant: reminders, conversation and identification

    A shallow embedding of [src/App.tsx] and [src/types.ts]: the watering
    reminder store (load effect, [handleSaveReminder],
    [handleDeleteReminder]), the [ReminderModal] input boundary, the
    conversation handler [handleSendMessage] and the name extraction of
    [handleAnalyzeClick].

    Conventions of the embedding.
    - A JavaScript string is its sequence of UTF-16 code units.
    - A JavaScript number is an integer, [NaN] or an infinity.  The
      operators [+], [-], [*] and [Math.floor (a / b)] are embedded exactly:
      they are the operators of the code on integers of magnitude up to
      2^53, where IEEE doubles are exact and [Math.floor (a / b)] is the
      floor of the rational quotient.  The time values of [Date]
      (magnitude up to 8.64e15) lie inside that range, and the properties
      of computed dates are stated for operands inside it.  Where a
      number enters the program from a text ([parseInt]) it is rounded to
      the nearest double.  Signed zeros are not told apart.
    - Synchronous code runs in zero time: every [Date.now()] of one handler
      invocation reads the same clock value.
    - Handlers are computations in a state-and-exception monad over [World]:
      the React state of [App], the [localStorage] item, the scheduled
      alerts and the console. *)

From Stdlib Require Import String Ascii.
From Stdlib Require Import ZArith NArith List Bool Lia.
From Stdlib Require Import Permutation Sorted.
Import ListNotations.
Local Open Scope Z_scope.

(** ** Strings *)

Definition jsstring := list N.

(** Code units of an ASCII literal. *)
Definition units (s : string) : jsstring :=
  map N_of_ascii (list_ascii_of_string s).

Definition jsstring_eqb (a b : jsstring) : bool :=
  if list_eq_dec N.eq_dec a b then true else false.

(** [WhiteSpace] and [LineTerminator] code units: what [\s] matches and
    what [trim] and [parseInt] strip. *)
Definition isWhiteSpace (c : N) : bool :=
  ((9 <=? c) && (c <=? 13) || (c =? 32) || (c =? 160) || (c =? 5760)
   || (8192 <=? c) && (c <=? 8202) || (c =? 8232) || (c =? 8233)
   || (c =? 8239) || (c =? 8287) || (c =? 12288) || (c =? 65279))%N.

(** Line terminators: the code units the regular expression atom [.]
    refuses. *)
Definition isLineTerminator (c : N) : bool :=
  ((c =? 10) || (c =? 13) || (c =? 8232) || (c =? 8233))%N.

Fixpoint trimStart (s : jsstring) : jsstring :=
  match s with
  | c :: s' => if isWhiteSpace c then trimStart s' else s
  | [] => []
  end.

Definition trimEnd (s : jsstring) : jsstring := rev (trimStart (rev s)).

(** [String.prototype.trim]. *)
Definition trim (s : jsstring) : jsstring := trimEnd (trimStart s).

(** ** Numbers *)

Inductive number := Num (z : Z) | NaN | PosInf | NegInf.

Definition neg (a : number) : number :=
  match a with
  | Num z => Num (- z)
  | NaN => NaN
  | PosInf => NegInf
  | NegInf => PosInf
  end.

(** [a + b] on numbers. *)
Definition add (a b : number) : number :=
  match a, b with
  | Num x, Num y => Num (x + y)
  | NaN, _ | _, NaN => NaN
  | PosInf, NegInf | NegInf, PosInf => NaN
  | PosInf, _ | _, PosInf => PosInf
  | NegInf, _ | _, NegInf => NegInf
  end.

(** [a - b]. *)
Definition sub (a b : number) : number := add a (neg b).

Definition infinity (positive : bool) : number :=
  if positive then PosInf else NegInf.

(** [a * b]. *)
Definition mul (a b : number) : number :=
  match a, b with
  | Num x, Num y => Num (x * y)
  | NaN, _ | _, NaN => NaN
  | Num x, PosInf | PosInf, Num x =>
      if x =? 0 then NaN else infinity (0 <? x)
  | Num x, NegInf | NegInf, Num x =>
      if x =? 0 then NaN else infinity (x <? 0)
  | PosInf, PosInf | NegInf, NegInf => PosInf
  | PosInf, NegInf | NegInf, PosInf => NegInf
  end.

(** [Math.floor(a / b)]: the quotient is only ever consumed through
    [Math.floor], so the two are embedded as one operation. *)
Definition Math_floor_div (a b : number) : number :=
  match a, b with
  | Num x, Num y =>
      if y =? 0 then
        (if x =? 0 then NaN else infinity (0 <? x))
      else Num (x / y)
  | NaN, _ | _, NaN => NaN
  | Num _, PosInf | Num _, NegInf => Num 0
  | PosInf, Num y => infinity (0 <=? y)
  | NegInf, Num y => infinity (y <? 0)
  | _, _ => NaN
  end.

(** [a < b]: false as soon as one side is [NaN]. *)
Definition lt (a b : number) : bool :=
  match a, b with
  | Num x, Num y => x <? y
  | NaN, _ | _, NaN => false
  | NegInf, NegInf | PosInf, _ => false
  | NegInf, _ => true
  | Num _, PosInf => true
  | Num _, NegInf => false
  end.

(** [a > b]. *)
Definition gt (a b : number) : bool := lt b a.

(** [a >= b]. *)
Definition ge (a b : number) : bool :=
  match a, b with
  | NaN, _ | _, NaN => false
  | _, _ => negb (lt a b)
  end.

(** Truthiness of a number, for [||]. *)
Definition truthy (a : number) : bool :=
  match a with
  | Num z => negb (z =? 0)
  | NaN => false
  | _ => true
  end.

(** The Number value of a mathematical integer: the integer itself up to
    2^53, beyond it the nearest double (53 significant bits, ties to
    even), and an infinity where that rounding reaches 2^1024. *)
Definition roundToDouble (n : Z) : number :=
  let a := Z.abs n in
  if a <=? 2 ^ 53 then Num n
  else
    let e := Z.log2 a - 52 in
    let q := a / 2 ^ e in
    let r := a mod 2 ^ e in
    let half := 2 ^ (e - 1) in
    let m := if (half <? r) || ((r =? half) && Z.odd q) then q + 1 else q in
    let v := m * 2 ^ e in
    if 2 ^ 1024 <=? v then infinity (0 <? n) else Num (Z.sgn n * v).

(** ** Dates *)

Definition msInDay : Z := 24 * 60 * 60 * 1000.

(** The largest time value a [Date] holds. *)
Definition maxTime : Z := 8640000000000000.

(** A [Date] object is its time value; [NaN] is the invalid date. *)
Record Date := { getTime : number }.

(** [new Date(value)] for a number: the time value is clipped. *)
Definition Date_new (value : number) : Date :=
  match value with
  | Num z =>
      if (- maxTime <=? z) && (z <=? maxTime) then {| getTime := Num z |}
      else {| getTime := NaN |}
  | _ => {| getTime := NaN |}
  end.

(** ** types.ts *)

(** A property typed [number] at run time: absent properties read
    [undefined], and JSON turns non-finite numbers into [null]. *)
Inductive field := Undefined | Null | Number (n : number).

(** [ToNumber], as applied by the arithmetic operators. *)
Definition ToNumber (v : field) : number :=
  match v with
  | Undefined => NaN
  | Null => Num 0
  | Number n => n
  end.

Module Types.

Inductive Role := user | model.

Record ChatMessage := { role : Role; text : jsstring }.

Record Reminder := {
  plantName : option jsstring;   (* [None]: the property is absent *)
  interval : field;              (* in days *)
  startDate : field              (* timestamp *)
}.

End Types.
Import Types.

(** [Reminder & { nextWateringDate: Date }], the element type of the
    [reminders] state. *)
Record DerivedReminder := {
  reminder : Reminder;
  nextWateringDate : Date
}.

(** ** The stored item

    [localStorage] holds one text under the key [wateringReminders].  The
    text is classified by what [JSON.parse] makes of it.  The elements of a
    stored array are [null] or objects.  Of a stored object the embedding
    keeps the four properties the code reads or writes; [plantName], when
    present, is a string, [interval] and [startDate], when present, are
    [null] or numbers that [JSON.parse] reads as integers: [Int z] is the
    text of a number whose parsed value is [z]. *)

Module JSON.

(** A numeric property of a JSON object. *)
Inductive num := Absent | NullNum | Int (z : Z).

(** What [Date.prototype.toJSON] leaves in the text: the ISO string of
    a valid time value, [null] for the invalid date. *)
Inductive date := IsoString (t : Z) | NullDate.

Record object := {
  plantName : option jsstring;
  interval : num;
  startDate : num;
  nextWateringDate : option date   (* [None]: the property is absent *)
}.

Inductive item := ItemNull | ItemObject (o : object).

Inductive value :=
| NonArray                      (* an object, string, number, boolean, null *)
| Array (items : list item).

Inductive text :=
| EmptyText                     (* the empty string *)
| Unparsable                    (* non-empty, [JSON.parse] throws *)
| Serialized (v : value).       (* the text [JSON.stringify] gives for [v] *)

End JSON.

(** Serialization of a numeric property: non-finite numbers become [null],
    [undefined] drops the property. *)
Definition stringify_field (v : field) : JSON.num :=
  match v with
  | Undefined => JSON.Absent
  | Null => JSON.NullNum
  | Number (Num z) => JSON.Int z
  | Number _ => JSON.NullNum
  end.

(** The property as [JSON.parse] rebuilds it. *)
Definition parse_field (j : JSON.num) : field :=
  match j with
  | JSON.Absent => Undefined
  | JSON.NullNum => Null
  | JSON.Int z => Number (Num z)
  end.

(** [Date.prototype.toJSON]. *)
Definition Date_toJSON (d : Date) : JSON.date :=
  match getTime d with
  | Num t => JSON.IsoString t
  | _ => JSON.NullDate
  end.

(** [JSON.stringify] of a plain [Reminder] object. *)
Definition stringify_Reminder (r : Reminder) : JSON.object :=
  {| JSON.plantName := plantName r;
     JSON.interval := stringify_field (interval r);
     JSON.startDate := stringify_field (startDate r);
     JSON.nextWateringDate := None |}.

(** [JSON.stringify] of an element of the [reminders] state: every own
    property is written, [nextWateringDate] included. *)
Definition stringify_DerivedReminder (d : DerivedReminder) : JSON.object :=
  {| JSON.plantName := plantName (reminder d);
     JSON.interval := stringify_field (interval (reminder d));
     JSON.startDate := stringify_field (startDate (reminder d));
     JSON.nextWateringDate := Some (Date_toJSON (nextWateringDate d)) |}.

(** The [plantName], [interval] and [startDate] properties of a parsed
    object. *)
Definition parse_Reminder (o : JSON.object) : Reminder :=
  {| plantName := JSON.plantName o;
     interval := parse_field (JSON.interval o);
     startDate := parse_field (JSON.startDate o) |}.

(** ** The world *)

(** A handle on a model conversation, as [createChatSession] returns it. *)
Inductive Chat := ChatHandle (id : nat).

(** The file behind the [image] state. *)
Inductive File := SelectedFile (id : nat).

(** Callbacks handed to [setTimeout]: [alert] with the reminder text,
    which interpolates [reminder.plantName]. *)
Inductive Timer := WateringAlert (name : option jsstring).

(** [console.error] lines. *)
Inductive LogLine :=
| ParseFailure       (* Failed to parse reminders from localStorage *)
| CaughtError.       (* [console.error(err)] of the two model handlers *)

(** The messages [setError] shows. *)
Inductive ErrorMessage :=
| SelectImageFirst
| AnalysisFailed
| ServerFailed.

Record World := {
  clock : Z;                              (* what [Date.now()] reads *)
  localStorage : option JSON.text;        (* the [wateringReminders] item *)
  timers : list Timer;
  console : list LogLine;
  sessions : nat;                         (* sessions created so far *)
  image : option File;
  messages : list ChatMessage;
  userInput : jsstring;
  isLoading : bool;
  error : option ErrorMessage;
  currentPlant : option jsstring;         (* the [plantName] state of [App] *)
  isReminderModalOpen : bool;
  reminders : list DerivedReminder;
  isListening : bool;
  chatSession : option Chat
}.

(** Field updates. *)

Definition set_image v (w : World) : World :=
  {| clock := clock w;
     localStorage := localStorage w;
     timers := timers w;
     console := console w;
     sessions := sessions w;
     image := v;
     messages := messages w;
     userInput := userInput w;
     isLoading := isLoading w;
     error := error w;
     currentPlant := currentPlant w;
     isReminderModalOpen := isReminderModalOpen w;
     reminders := reminders w;
     isListening := isListening w;
     chatSession := chatSession w |}.

Definition set_localStorage v (w : World) : World :=
  {| clock := clock w;
     localStorage := v;
     timers := timers w;
     console := console w;
     sessions := sessions w;
     image := image w;
     messages := messages w;
     userInput := userInput w;
     isLoading := isLoading w;
     error := error w;
     currentPlant := currentPlant w;
     isReminderModalOpen := isReminderModalOpen w;
     reminders := reminders w;
     isListening := isListening w;
     chatSession := chatSession w |}.

Definition set_timers v (w : World) : World :=
  {| clock := clock w;
     localStorage := localStorage w;
     timers := v;
     console := console w;
     sessions := sessions w;
     image := image w;
     messages := messages w;
     userInput := userInput w;
     isLoading := isLoading w;
     error := error w;
     currentPlant := currentPlant w;
     isReminderModalOpen := isReminderModalOpen w;
     reminders := reminders w;
     isListening := isListening w;
     chatSession := chatSession w |}.

Definition set_console v (w : World) : World :=
  {| clock := clock w;
     localStorage := localStorage w;
     timers := timers w;
     console := v;
     sessions := sessions w;
     image := image w;
     messages := messages w;
     userInput := userInput w;
     isLoading := isLoading w;
     error := error w;
     currentPlant := currentPlant w;
     isReminderModalOpen := isReminderModalOpen w;
     reminders := reminders w;
     isListening := isListening w;
     chatSession := chatSession w |}.

Definition set_sessions v (w : World) : World :=
  {| clock := clock w;
     localStorage := localStorage w;
     timers := timers w;
     console := console w;
     sessions := v;
     image := image w;
     messages := messages w;
     userInput := userInput w;
     isLoading := isLoading w;
     error := error w;
     currentPlant := currentPlant w;
     isReminderModalOpen := isReminderModalOpen w;
     reminders := reminders w;
     isListening := isListening w;
     chatSession := chatSession w |}.

Definition set_messages v (w : World) : World :=
  {| clock := clock w;
     localStorage := localStorage w;
     timers := timers w;
     console := console w;
     sessions := sessions w;
     image := image w;
     messages := v;
     userInput := userInput w;
     isLoading := isLoading w;
     error := error w;
     currentPlant := currentPlant w;
     isReminderModalOpen := isReminderModalOpen w;
     reminders := reminders w;
     isListening := isListening w;
     chatSession := chatSession w |}.

Definition set_userInput v (w : World) : World :=
  {| clock := clock w;
     localStorage := localStorage w;
     timers := timers w;
     console := console w;
     sessions := sessions w;
     image := image w;
     messages := messages w;
     userInput := v;
     isLoading := isLoading w;
     error := error w;
     currentPlant := currentPlant w;
     isReminderModalOpen := isReminderModalOpen w;
     reminders := reminders w;
     isListening := isListening w;
     chatSession := chatSession w |}.

Definition set_isLoading v (w : World) : World :=
  {| clock := clock w;
     localStorage := localStorage w;
     timers := timers w;
     console := console w;
     sessions := sessions w;
     image := image w;
     messages := messages w;
     userInput := userInput w;
     isLoading := v;
     error := error w;
     currentPlant := currentPlant w;
     isReminderModalOpen := isReminderModalOpen w;
     reminders := reminders w;
     isListening := isListening w;
     chatSession := chatSession w |}.

Definition set_error v (w : World) : World :=
  {| clock := clock w;
     localStorage := localStorage w;
     timers := timers w;
     console := console w;
     sessions := sessions w;
     image := image w;
     messages := messages w;
     userInput := userInput w;
     isLoading := isLoading w;
     error := v;
     currentPlant := currentPlant w;
     isReminderModalOpen := isReminderModalOpen w;
     reminders := reminders w;
     isListening := isListening w;
     chatSession := chatSession w |}.

Definition set_currentPlant v (w : World) : World :=
  {| clock := clock w;
     localStorage := localStorage w;
     timers := timers w;
     console := console w;
     sessions := sessions w;
     image := image w;
     messages := messages w;
     userInput := userInput w;
     isLoading := isLoading w;
     error := error w;
     currentPlant := v;
     isReminderModalOpen := isReminderModalOpen w;
     reminders := reminders w;
     isListening := isListening w;
     chatSession := chatSession w |}.

Definition set_isReminderModalOpen v (w : World) : World :=
  {| clock := clock w;
     localStorage := localStorage w;
     timers := timers w;
     console := console w;
     sessions := sessions w;
     image := image w;
     messages := messages w;
     userInput := userInput w;
     isLoading := isLoading w;
     error := error w;
     currentPlant := currentPlant w;
     isReminderModalOpen := v;
     reminders := reminders w;
     isListening := isListening w;
     chatSession := chatSession w |}.

Definition set_reminders v (w : World) : World :=
  {| clock := clock w;
     localStorage := localStorage w;
     timers := timers w;
     console := console w;
     sessions := sessions w;
     image := image w;
     messages := messages w;
     userInput := userInput w;
     isLoading := isLoading w;
     error := error w;
     currentPlant := currentPlant w;
     isReminderModalOpen := isReminderModalOpen w;
     reminders := v;
     isListening := isListening w;
     chatSession := chatSession w |}.

Definition set_isListening v (w : World) : World :=
  {| clock := clock w;
     localStorage := localStorage w;
     timers := timers w;
     console := console w;
     sessions := sessions w;
     image := image w;
     messages := messages w;
     userInput := userInput w;
     isLoading := isLoading w;
     error := error w;
     currentPlant := currentPlant w;
     isReminderModalOpen := isReminderModalOpen w;
     reminders := reminders w;
     isListening := v;
     chatSession := chatSession w |}.

Definition set_chatSession v (w : World) : World :=
  {| clock := clock w;
     localStorage := localStorage w;
     timers := timers w;
     console := console w;
     sessions := sessions w;
     image := image w;
     messages := messages w;
     userInput := userInput w;
     isLoading := isLoading w;
     error := error w;
     currentPlant := currentPlant w;
     isReminderModalOpen := isReminderModalOpen w;
     reminders := reminders w;
     isListening := isListening w;
     chatSession := v |}.

(** ** Computations

    A handler threads the world and may throw; what it did to the world
    before throwing stays done. *)

Inductive Error := SyntaxError | TypeError.

Inductive Completion (A : Type) :=
| Normal (a : A)
| Throw (e : Error).

Arguments Normal {A} a.
Arguments Throw {A} e.

Definition M (A : Type) : Type := World -> Completion A * World.

Definition ret {A} (a : A) : M A := fun w => (Normal a, w).

Definition bind {A B} (c : M A) (k : A -> M B) : M B :=
  fun w =>
    match c w with
    | (Normal a, w') => k a w'
    | (Throw e, w') => (Throw e, w')
    end.

Definition throw {A} (e : Error) : M A := fun w => (Throw e, w).

(** [try { body } catch (e) { handler }]. *)
Definition try_catch {A} (body : M A) (handler : Error -> M A) : M A :=
  fun w =>
    match body w with
    | (Normal a, w') => (Normal a, w')
    | (Throw e, w') => handler e w'
    end.

Definition gets {A} (f : World -> A) : M A := fun w => (Normal (f w), w).

Definition modify (f : World -> World) : M unit := fun w => (Normal tt, f w).

(** The world a computation leaves. *)
Definition exec {A} (c : M A) (w : World) : World := snd (c w).

(** The completion of a computation. *)
Definition completion {A} (c : M A) (w : World) : Completion A := fst (c w).

Declare Scope js_scope.
Delimit Scope js_scope with js.
Notation "x <- c ;; k" := (bind c (fun x => k))
  (at level 61, c at next level, right associativity) : js_scope.
Notation "c ;; k" := (bind c (fun _ => k))
  (at level 61, right associativity) : js_scope.
Local Open Scope js_scope.

Fixpoint mapM {A B} (f : A -> M B) (l : list A) : M (list B) :=
  match l with
  | [] => ret []
  | x :: l' => y <- f x ;; ys <- mapM f l' ;; ret (y :: ys)
  end.

(** *** The platform *)

Definition Date_now : M Z := gets clock.

Definition localStorage_getItem : M (option JSON.text) := gets localStorage.

Definition localStorage_setItem (t : JSON.text) : M unit :=
  modify (set_localStorage (Some t)).

Definition localStorage_removeItem : M unit :=
  modify (set_localStorage None).

Definition setTimeout (t : Timer) : M unit :=
  modify (fun w => set_timers (timers w ++ [t]) w).

Definition console_error (l : LogLine) : M unit :=
  modify (fun w => set_console (console w ++ [l]) w).

(** [createChatSession] of the model service: a fresh handle. *)
Definition createChatSession : M Chat :=
  n <- gets sessions ;;
  modify (set_sessions (S n)) ;;
  ret (ChatHandle n).

(** Truthiness of the text [getItem] returned. *)
Definition nonEmptyText (t : JSON.text) : bool :=
  match t with
  | JSON.EmptyText => false
  | _ => true
  end.

Definition JSON_parse (t : JSON.text) : M JSON.value :=
  match t with
  | JSON.Serialized v => ret v
  | _ => throw SyntaxError
  end.

(** [parsed.map(callback)]: only arrays have a [map] to call. *)
Definition Array_map {B} (callback : JSON.item -> M B) (parsed : JSON.value)
  : M (list B) :=
  match parsed with
  | JSON.NonArray => throw TypeError
  | JSON.Array items => mapM callback items
  end.

(** [Array.prototype.sort]: stable; [a] moves behind [b] when
    [compareFn a b > 0], and a [NaN] result counts as zero. *)
Fixpoint insert {A} (compareFn : A -> A -> number) (a : A) (l : list A)
  : list A :=
  match l with
  | [] => [a]
  | b :: l' =>
      if gt (compareFn a b) (Num 0) then b :: insert compareFn a l'
      else a :: l
  end.

Fixpoint Array_sort {A} (compareFn : A -> A -> number) (l : list A)
  : list A :=
  match l with
  | [] => []
  | a :: l' => insert compareFn a (Array_sort compareFn l')
  end.

(** An element of the array [handleSaveReminder] serializes: the kept
    elements of the [reminders] state and the plain new reminder. *)
Inductive Entry :=
| Derived (d : DerivedReminder)
| Plain (r : Reminder).

Definition stringify_Entry (e : Entry) : JSON.object :=
  match e with
  | Derived d => stringify_DerivedReminder d
  | Plain r => stringify_Reminder r
  end.

Definition JSON_stringify (l : list Entry) : JSON.text :=
  JSON.Serialized (JSON.Array (map JSON.ItemObject (map stringify_Entry l))).

(** *** React state setters *)

Definition setMessages (f : list ChatMessage -> list ChatMessage) : M unit :=
  modify (fun w => set_messages (f (messages w)) w).

Definition setReminders (f : list DerivedReminder -> list DerivedReminder)
  : M unit :=
  modify (fun w => set_reminders (f (reminders w)) w).

Definition setUserInput (s : jsstring) : M unit := modify (set_userInput s).
Definition setIsLoading (b : bool) : M unit := modify (set_isLoading b).
Definition setError (e : option ErrorMessage) : M unit := modify (set_error e).
Definition setPlantName (n : option jsstring) : M unit :=
  modify (set_currentPlant n).
Definition setIsReminderModalOpen (b : bool) : M unit :=
  modify (set_isReminderModalOpen b).
Definition setIsListening (b : bool) : M unit := modify (set_isListening b).
Definition setChatSession (c : option Chat) : M unit :=
  modify (set_chatSession c).

(** ** The reminder store *)

(** The timestamp of the next watering, as the load effect computes it
    from one reading [t] of [Date.now()].  On time stamps and intervals
    whose values stay within 2^53 these are the values of the code. *)
Definition nextWateringTimestamp (t : Z) (reminder : Reminder) : number :=
  let intervalMs := mul (ToNumber (interval reminder)) (Num msInDay) in
  let timeSinceStart := sub (Num t) (ToNumber (startDate reminder)) in
  let intervalsPassed := Math_floor_div timeSinceStart intervalMs in
  add (ToNumber (startDate reminder))
      (mul (add intervalsPassed (Num 1)) intervalMs).

(** The condition of the alert, due today or past due, on the two
    readings of [Date.now()] it makes. *)
Definition alertDue (t1 t2 : Z) (nextWateringDate : Date) : bool :=
  ge (Num t1) (sub (getTime nextWateringDate) (Num msInDay))
  && lt (Num t2) (add (getTime nextWateringDate) (Num msInDay)).

(** The callback of [parsedReminders.map]. *)
Definition withDate (item : JSON.item) : M DerivedReminder :=
  match item with
  | JSON.ItemNull => throw TypeError       (* [reminder.interval] of null *)
  | JSON.ItemObject o =>
      let reminder := parse_Reminder o in
      t <- Date_now ;;
      let nextWateringDate := Date_new (nextWateringTimestamp t reminder) in
      t1 <- Date_now ;;
      t2 <- Date_now ;;
      (if alertDue t1 t2 nextWateringDate
       then setTimeout (WateringAlert (plantName reminder))
       else ret tt) ;;
      ret {| reminder := reminder; nextWateringDate := nextWateringDate |}
  end.

(** The comparison function of both sorts. *)
Definition byNextWateringDate (a b : DerivedReminder) : number :=
  sub (getTime (nextWateringDate a)) (getTime (nextWateringDate b)).

(** The effect that loads the reminders when the component mounts. *)
Definition loadReminders : M unit :=
  storedReminders <- localStorage_getItem ;;
  match storedReminders with
  | Some stored =>
      if nonEmptyText stored then
        try_catch
          (parsedReminders <- JSON_parse stored ;;
           remindersWithDates <- Array_map withDate parsedReminders ;;
           setReminders
             (fun _ => Array_sort byNextWateringDate remindersWithDates))
          (fun _ =>
             console_error ParseFailure ;;
             localStorage_removeItem)
      else ret tt
  | None => ret tt
  end.

(** [r.plantName !== name]; an absent property is [undefined]. *)
Definition differs (p name : option jsstring) : bool :=
  match p, name with
  | Some a, Some b => negb (jsstring_eqb a b)
  | None, None => false
  | _, _ => true
  end.

(** The date [handleSaveReminder] gives the reminder it has just built. *)
Definition nextWateringDate_saved (newReminder : Reminder) : Date :=
  Date_new (add (ToNumber (startDate newReminder))
                (mul (ToNumber (interval newReminder)) (Num msInDay))).

Definition handleSaveReminder (interval : number) : M unit :=
  current <- gets currentPlant ;;
  match current with
  | None | Some [] => ret tt
  | Some name =>
      t <- Date_now ;;
      let newReminder :=
        {| plantName := Some name;
           interval := Number interval;
           startDate := Number (Num t) |} in
      rs <- gets reminders ;;
      let updatedReminders :=
        map Derived
            (filter (fun r => differs (plantName (reminder r)) (Some name)) rs)
        ++ [Plain newReminder] in
      localStorage_setItem (JSON_stringify updatedReminders) ;;
      let nextWateringDate := nextWateringDate_saved newReminder in
      setReminders (fun prev =>
        Array_sort byNextWateringDate
          (filter (fun r => differs (plantName (reminder r)) (Some name)) prev
           ++ [{| reminder := newReminder;
                  nextWateringDate := nextWateringDate |}])) ;;
      setIsReminderModalOpen false
  end.

(** The argument is what the list hands over: [reminder.plantName]. *)
Definition handleDeleteReminder (plantNameToDelete : option jsstring)
  : M unit :=
  rs <- gets reminders ;;
  let updatedReminders :=
    filter (fun r => differs (plantName (reminder r)) plantNameToDelete) rs in
  localStorage_setItem (JSON_stringify (map Derived updatedReminders)) ;;
  setReminders (fun _ => updatedReminders).

(** ** ReminderModal *)

Definition isDigit (c : N) : bool := ((48 <=? c) && (c <=? 57))%N.

Fixpoint parseDigits (s : jsstring) (acc : option Z) : option Z :=
  match s with
  | c :: s' =>
      if isDigit c then
        parseDigits s'
          (Some (10 * match acc with Some n => n | None => 0 end
                 + Z.of_N (c - 48)))
      else acc
  | [] => acc
  end.

(** [parseInt(s, 10)]: leading white space, a sign, the longest run of
    decimal digits; [NaN] without a digit.  The result is the Number value
    of the integer the digits denote: beyond 2^53 it is rounded, and from
    about 1.8e308 on it is an infinity.  (Beyond 20 significant digits an
    engine may round from the first 20 digits only; the result is then
    still an integer of the same sign, or the same infinity.) *)
Definition parseInt (s : jsstring) : number :=
  let s1 := trimStart s in
  let '(sign, s2) :=
    match s1 with
    | 45%N :: r => (-1, r)
    | 43%N :: r => (1, r)
    | _ => (1, s1)
    end in
  match parseDigits s2 None with
  | Some n => roundToDouble (sign * n)
  | None => NaN
  end.

(** [a || b] on numbers. *)
Definition or_else (a b : number) : number := if truthy a then a else b.

Module ReminderModal.

(** The [interval] state. *)
Record State := { interval : number }.

(** [useState(7)]. *)
Definition initial : State := {| interval := Num 7 |}.

(** The [onChange] of the input, given [e.target.value]. *)
Definition onChange (value : jsstring) (_ : State) : State :=
  {| interval := or_else (parseInt value) (Num 1) |}.

(** [handleSave]: the interval [onSave] is called with, if it is. *)
Definition handleSave (s : State) : option number :=
  if gt (interval s) (Num 0) then Some (interval s) else None.

(** The modal after the user typed the given values in turn. *)
Definition typed (values : list jsstring) : State :=
  fold_left (fun s v => onChange v s) values initial.

(** A click on the save button, with [onSave = handleSaveReminder]. *)
Definition clickSave (s : State) : M unit :=
  match handleSave s with
  | Some i => handleSaveReminder i
  | None => ret tt
  end.

End ReminderModal.

(** ** The conversation *)

(** The call [sendMessageToChat(chatSession.current, userInput)] a send
    leaves pending. *)
Record SendRequest := { chat : Chat; message : jsstring }.

(** [handleSendMessage] up to its [await]: [None] when the handler
    returned before calling the model. *)
Definition handleSendMessage : M (option SendRequest) :=
  input <- gets userInput ;;
  loading <- gets isLoading ;;
  match trim input with
  | [] => ret None
  | _ :: _ =>
      if loading then ret None else
      listening <- gets isListening ;;
      (if listening then setIsListening false else ret tt) ;;
      let userMessage := {| role := user; text := input |} in
      setMessages (fun prev => prev ++ [userMessage]) ;;
      setUserInput [] ;;
      setIsLoading true ;;
      setError None ;;
      session <- gets chatSession ;;
      handle <- match session with
                | Some h => ret h
                | None =>
                    h <- createChatSession ;;
                    setChatSession (Some h) ;;
                    ret h
                end ;;
      ret (Some {| chat := handle; message := input |})
  end.

(** The rest of [handleSendMessage] when the model answers. *)
Definition handleSendMessage_fulfilled (modelResponse : jsstring) : M unit :=
  setMessages (fun prev => prev ++ [{| role := model; text := modelResponse |}]) ;;
  setIsLoading false.

(** The rest of [handleSendMessage] when the model call fails: the [catch]
    and [finally] blocks. *)
Definition handleSendMessage_rejected : M unit :=
  console_error CaughtError ;;
  setError (Some ServerFailed) ;;
  setMessages (fun prev => removelast prev) ;;     (* [prev.slice(0, -1)] *)
  setIsLoading false.

(** ** Identification *)

(** *** The regular expression of the name field

    Matchers in continuation-passing style, as the language definition
    gives them: a matcher consumes input and hands the rest to its
    continuation; when the continuation fails it tries its next choice. *)

Section Matchers.

Context {R : Type}.

(** A sequence of literal code units. *)
Fixpoint literal (l : jsstring) (k : jsstring -> option R) (s : jsstring)
  : option R :=
  match l with
  | [] => k s
  | c :: l' =>
      match s with
      | d :: s' => if (c =? d)%N then literal l' k s' else None
      | [] => None
      end
  end.

(** [p*], greedy: the longest run first. *)
Fixpoint greedyStar (p : N -> bool) (k : jsstring -> option R)
  (s : jsstring) : option R :=
  match s with
  | c :: s' =>
      if p c then
        match greedyStar p k s' with
        | Some r => Some r
        | None => k s
        end
      else k s
  | [] => k []
  end.

(** [(p*?)], lazy and capturing: the shortest run first; [seen] is the
    run so far and the continuation receives the capture. *)
Fixpoint lazyStar (p : N -> bool) (k : jsstring -> jsstring -> option R)
  (seen s : jsstring) : option R :=
  match k seen s with
  | Some r => Some r
  | None =>
      match s with
      | c :: s' => if p c then lazyStar p k (seen ++ [c]) s' else None
      | [] => None
      end
  end.

(** One code unit of a class. *)
Definition oneOf (p : N -> bool) (k : jsstring -> option R) (s : jsstring)
  : option R :=
  match s with
  | c :: s' => if p c then k s' else None
  | [] => None
  end.

End Matchers.

(** The code units of the bold name header, asterisks included. *)
Definition nameHeader : jsstring :=
  [42; 42; 1606; 1575; 1605; 32; 1711; 1740; 1575; 1607; 58; 42; 42]%N.

(** Slash or line feed. *)
Definition isSeparator (c : N) : bool := ((c =? 47) || (c =? 10))%N.

(** The whole pattern at one start position; the result is capture 1. *)
Definition nameRegExp_at (s : jsstring) : option jsstring :=
  literal nameHeader
    (greedyStar isWhiteSpace
       (lazyStar (fun c => negb (isLineTerminator c))
          (fun capture =>
             greedyStar isWhiteSpace
               (oneOf isSeparator (fun _ => Some capture)))
          []))
    s.

(** [modelResponse.match(...)]: the leftmost start position that matches;
    [None] is [null]. *)
Fixpoint nameMatch (s : jsstring) : option jsstring :=
  match nameRegExp_at s with
  | Some capture => Some capture
  | None =>
      match s with
      | _ :: s' => nameMatch s'
      | [] => None
      end
  end.

(** [handleImageChange], given [event.target.files?.[0]]. *)
Definition handleImageChange (file : option File) : M unit :=
  match file with
  | Some f =>
      modify (set_image (Some f)) ;;
      setMessages (fun _ => []) ;;
      setError None ;;
      setPlantName None
  | None => ret tt
  end.

(** [handleAnalyzeClick] up to its [await]s: the image sent to the model,
    if any. *)
Definition handleAnalyzeClick : M (option File) :=
  img <- gets image ;;
  match img with
  | None => setError (Some SelectImageFirst) ;; ret None
  | Some file =>
      setIsLoading true ;;
      setError None ;;
      setMessages (fun _ => []) ;;
      setPlantName None ;;
      ret (Some file)
  end.

(** The rest of [handleAnalyzeClick] when the model answers with a text:
    the statements after the two [await]s, none of which throws then. *)
Definition handleAnalyzeClick_fulfilled (modelResponse : jsstring) : M unit :=
  setMessages (fun _ => [{| role := model; text := modelResponse |}]) ;;
  match nameMatch modelResponse with
  | Some (c :: capture) => setPlantName (Some (trim (c :: capture)))
  | _ => ret tt
  end ;;
  h <- createChatSession ;;
  setChatSession (Some h) ;;
  setIsLoading false.

(** The rest of [handleAnalyzeClick] when an awaited call rejects
    ([fileToBase64] or [analyzePlantImage]): the [catch] and [finally]
    blocks, run on the state the handler left before its first [await]. *)
Definition handleAnalyzeClick_rejected : M unit :=
  console_error CaughtError ;;
  setError (Some AnalysisFailed) ;;
  setIsLoading false.

(** The whole identification, from the click to the answer. *)
Definition identify (modelResponse : jsstring) : M unit :=
  sent <- handleAnalyzeClick ;;
  match sent with
  | Some _ => handleAnalyzeClick_fulfilled modelResponse
  | None => ret tt
  end.

(** ** Mounting the component *)

(** The world of a fresh page: every [useState] at its initial value, the
    stored item as the previous visits left it. *)
Definition mount (now : Z) (stored : option JSON.text) : World :=
  {| clock := now;
     localStorage := stored;
     timers := [];
     console := [];
     sessions := 0;
     image := None;
     messages := [];
     userInput := [];
     isLoading := false;
     error := None;
     currentPlant := None;
     isReminderModalOpen := false;
     reminders := [];
     isListening := false;
     chatSession := None |}.

(** The effects run on mount: the chat session, then the reminders. *)
Definition App_mount : M unit :=
  h <- createChatSession ;;
  setChatSession (Some h) ;;
  loadReminders.

(** ** The rest of App.tsx *)

(** [s.split(sep)] for a separator of one code unit. *)
Fixpoint split (sep : N) (s : jsstring) : list jsstring :=
  match s with
  | [] => [[]]
  | c :: s' =>
      if (c =? sep)%N then [] :: split sep s'
      else
        match split sep s' with
        | piece :: pieces => (c :: piece) :: pieces
        | [] => [[c]]
        end
  end.

(** [fileToBase64]: what the promise resolves with, given [reader.result],
    that is [result.split(',')[1]]; [None] is [undefined]. *)
Definition fileToBase64 (result : jsstring) : option jsstring :=
  nth_error (split 44 result) 1.

(** One entry of [event.results]: [isFinal] and [[0].transcript]. *)
Record SpeechResult := { isFinal : bool; transcript : jsstring }.

(** The loop of [recognition.onresult]: the final and the interim
    transcript. *)
Definition transcripts (results : list SpeechResult) : jsstring * jsstring :=
  fold_left
    (fun acc r =>
       let '(finalTranscript, interimTranscript) := acc in
       if isFinal r then (finalTranscript ++ transcript r, interimTranscript)
       else (finalTranscript, interimTranscript ++ transcript r))
    results ([], []).

(** [recognition.onresult], given [event.resultIndex] and
    [event.results]. *)
Definition onresult (resultIndex : nat) (results : list SpeechResult)
  : M unit :=
  let '(finalTranscript, interimTranscript) :=
    transcripts (skipn resultIndex results) in
  setUserInput (finalTranscript ++ interimTranscript).

(** [recognition.onend]. *)
Definition onend : M unit := setIsListening false.

(** What [handleToggleListening] asks of the recognition object. *)
Inductive RecognitionCall := RecognitionStart | RecognitionStop.

(** [handleToggleListening]; [recognition] tells whether
    [recognitionRef.current] is set. *)
Definition handleToggleListening (recognition : bool)
  : M (option RecognitionCall) :=
  if recognition then
    listening <- gets isListening ;;
    if listening then ret (Some RecognitionStop)
    else
      setUserInput [] ;;
      setIsListening true ;;
      ret (Some RecognitionStart)
  else ret None.

(** The leftmost start position at which a pattern matches. *)
Fixpoint firstMatch {R} (pattern_at : jsstring -> option R) (s : jsstring)
  : option R :=
  match pattern_at s with
  | Some r => Some r
  | None =>
      match s with
      | _ :: s' => firstMatch pattern_at s'
      | [] => None
      end
  end.

(** The code units of the bold introduction header and the line feed
    after it. *)
Definition introHeader : jsstring :=
  [42; 42; 1605; 1593; 1585; 1601; 1740; 58; 42; 42; 10]%N.

(** The pattern of [getPlantDescription] at one start position: the
    header, any code units (lazily, captured), a line feed and two
    asterisks. *)
Definition introRegExp_at (s : jsstring) : option jsstring :=
  literal introHeader
    (lazyStar (fun _ => true)
       (fun capture => literal [10; 42; 42]%N (fun _ => Some capture))
       [])
    s.

(** The text shown when the reply has no introduction. *)
Definition noInformation : jsstring :=
  [1575; 1591; 1604; 1575; 1593; 1575; 1578; 1740; 32; 1740; 1575; 1601;
   1578; 32; 1606; 1588; 1583; 46]%N.

Definition getPlantDescription (modelResponse : jsstring) : jsstring :=
  match firstMatch introRegExp_at modelResponse with
  | Some capture => trim capture
  | None => noInformation
  end.

Module Share.

(** The argument of [navigator.share]. *)
Record Data := { title : jsstring; text : jsstring }.

End Share.

(** The fixed parts of the two template literals of [handleShare]. *)
Definition shareTitlePrefix : jsstring :=
  [55356; 57151; 32; 1711; 1740; 1575; 1607; 32; 1588; 1606; 1575; 1587;
   1575; 1740; 1740; 32; 1588; 1583; 1607; 58; 32]%N.

Definition shareTextBeforeName : jsstring :=
  [1605; 1606; 32; 1607; 1605; 1740; 1606; 32; 1575; 1604; 1575; 1606; 32;
   1576; 1575; 32; 1583; 1587; 1578; 1740; 1575; 1585; 32; 1576; 1575;
   1594; 1576; 1575; 1606; 1740; 1548; 32; 1711; 1740; 1575; 1607; 32;
   34]%N.

Definition shareTextAfterName : jsstring :=
  [34; 32; 1585; 1575; 32; 1588; 1606; 1575; 1587; 1575; 1740; 1740; 32;
   1705; 1585; 1583; 1605; 33; 10; 10; 1605; 1593; 1585; 1601; 1740; 32;
   1705; 1608; 1578; 1575; 1607; 58; 10]%N.

(** [handleShare] up to its [await]: the data handed to [navigator.share],
    if it is called; [canShare] tells whether [navigator.share] exists. *)
Definition handleShare (canShare : bool) : M (option Share.Data) :=
  plant <- gets currentPlant ;;
  turns <- gets messages ;;
  match plant, turns with
  | Some (c :: name), first :: _ =>
      if canShare then
        let description := getPlantDescription (text first) in
        ret (Some {| Share.title := shareTitlePrefix ++ c :: name;
                     Share.text :=
                       shareTextBeforeName ++ (c :: name)
                       ++ shareTextAfterName ++ description |})
      else ret None
  | _, _ => ret None
  end.

(** [hasReminderForCurrentPlant], as each render computes it. *)
Definition hasReminderForCurrentPlant (w : World) : bool :=
  match currentPlant w with
  | Some (c :: name) =>
      existsb
        (fun r => negb (differs (plantName (reminder r)) (Some (c :: name))))
        (reminders w)
  | _ => false
  end.

(** The [disabled] attribute of the submit button of the form. *)
Definition submitDisabled (w : World) : bool :=
  match trim (userInput w) with [] => true | _ :: _ => false end
  || isLoading w
  || (length (messages w) =? 0)%nat.

(** *** formattedText *)

(** [s.startsWith(prefix)]. *)
Fixpoint startsWith (prefix s : jsstring) : bool :=
  match prefix with
  | [] => true
  | c :: prefix' =>
      match s with
      | d :: s' => (c =? d)%N && startsWith prefix' s'
      | [] => false
      end
  end.

(** [s.endsWith(suffix)]. *)
Definition endsWith (suffix s : jsstring) : bool :=
  startsWith (rev suffix) (rev s).

(** [s.replace(pattern, '')] for a string pattern: the first occurrence
    goes. *)
Fixpoint removeFirst (pattern s : jsstring) : jsstring :=
  if startsWith pattern s then skipn (length pattern) s
  else
    match s with
    | c :: s' => c :: removeFirst pattern s'
    | [] => []
    end.

(** [s.replace(/pattern/g, '')] for a pattern of literal code units: every
    occurrence goes, from the left, occurrences not overlapping; [skip]
    counts the code units of an occurrence that are still to drop. *)
Fixpoint removeAllFrom (pattern : jsstring) (skip : nat) (s : jsstring)
  : jsstring :=
  match s with
  | [] => []
  | c :: s' =>
      match skip with
      | S k => removeAllFrom pattern k s'
      | O =>
          if startsWith pattern s
          then removeAllFrom pattern (length pattern - 1) s'
          else c :: removeAllFrom pattern 0 s'
      end
  end.

Definition removeAll (pattern s : jsstring) : jsstring :=
  removeAllFrom pattern 0 s.

(** [s.split(separator)] for a separator of several code units; [skip]
    as above. *)
Fixpoint splitFrom (separator : jsstring) (skip : nat) (s : jsstring)
  : list jsstring :=
  match s with
  | [] => [[]]
  | c :: s' =>
      match skip with
      | S k => splitFrom separator k s'
      | O =>
          if startsWith separator s
          then [] :: splitFrom separator (length separator - 1) s'
          else
            match splitFrom separator 0 s' with
            | piece :: pieces => (c :: piece) :: pieces
            | [] => [[c]]
            end
      end
  end.

Definition splitBy (separator s : jsstring) : list jsstring :=
  splitFrom separator 0 s.

(** The literals of [formattedText]: two asterisks; an asterisk, three
    spaces and two asterisks; a colon and two asterisks; an asterisk and
    three spaces. *)
Definition bold : jsstring := [42; 42]%N.
Definition boldBullet : jsstring := [42; 32; 32; 32; 42; 42]%N.
Definition labelEnd : jsstring := [58; 42; 42]%N.
Definition bullet : jsstring := [42; 32; 32; 32]%N.

(** The element [formattedText] makes of a line, with the text it holds:
    a heading, a paragraph that starts with a label in bold followed by a
    colon, a list item, a plain paragraph. *)
Inductive Block :=
| Heading (content : jsstring)
| Labelled (label : jsstring) (value : option jsstring)
| ListItem (content : jsstring)
| Paragraph (content : jsstring).

(** The callback of [sections.map]. *)
Definition formatSection (section : jsstring) : Block :=
  if startsWith bold section && endsWith bold section then
    Heading (removeAll bold section)
  else if startsWith boldBullet section then
    let parts := splitBy labelEnd (removeFirst boldBullet section) in
    Labelled (hd [] parts) (nth_error parts 1)
  else if startsWith bullet section then
    ListItem (removeFirst bullet section)
  else Paragraph section.

Definition formattedText (text : jsstring) : list Block :=
  map formatSection (split 10 text).

(** * Vocabulary of the properties *)

(** What a save at clock [t] builds. *)
Definition newReminderAt (t : Z) (name : jsstring) (interval : number)
  : Reminder :=
  {| plantName := Some name;
     interval := Number interval;
     startDate := Number (Num t) |}.

(** The record the load callback builds for a stored object at clock [t]. *)
Definition derived (t : Z) (o : JSON.object) : DerivedReminder :=
  {| reminder := parse_Reminder o;
     nextWateringDate := Date_new (nextWateringTimestamp t (parse_Reminder o)) |}.

(** What a load at clock [t] makes of a serialized entry. *)
Definition reloaded (t : Z) (e : Entry) : DerivedReminder :=
  derived t (stringify_Entry e).

(** The alerts the callback schedules for it. *)
Definition alertsOf (t : Z) (o : JSON.object) : list Timer :=
  if alertDue t t (nextWateringDate (derived t o))
  then [WateringAlert (JSON.plantName o)]
  else [].

(** The window of the alert, on time values. *)
Definition inAlertWindow (now : Z) (d : DerivedReminder) : Prop :=
  exists next,
    getTime (nextWateringDate d) = Num next
    /\ next - msInDay <= now < next + msInDay.

(** The stored items on which the load effect throws: text that does not
    parse, a value that is not an array, an array with a null element. *)
Definition corrupted (stored : JSON.text) : Prop :=
  stored = JSON.Unparsable
  \/ stored = JSON.Serialized JSON.NonArray
  \/ exists items,
       stored = JSON.Serialized (JSON.Array items) /\ In JSON.ItemNull items.

(** The plant names of a reminder list, in order. *)
Definition names (l : list DerivedReminder) : list (option jsstring) :=
  map (fun d => plantName (reminder d)) l.

(** The filter of save and delete: the reminders of the other plants. *)
Definition others (name : option jsstring) (l : list DerivedReminder)
  : list DerivedReminder :=
  filter (fun r => differs (plantName (reminder r)) name) l.

(** The test that a record carries the given plant name. *)
Definition named (name : jsstring) (d : DerivedReminder) : bool :=
  negb (differs (plantName (reminder d)) (Some name)).

(** The date of the record is a valid one. *)
Definition hasValidDate (d : DerivedReminder) : Prop :=
  exists x, getTime (nextWateringDate d) = Num x.

(** [a] is due no later than [b], both dates being valid. *)
Definition dueBefore (a b : DerivedReminder) : Prop :=
  exists x y,
    getTime (nextWateringDate a) = Num x
    /\ getTime (nextWateringDate b) = Num y
    /\ x <= y.

(** Ascending by [nextWateringDate]. *)
Definition ascending (l : list DerivedReminder) : Prop :=
  StronglySorted dueBefore l.

(** A reminder as the store means it, seen at clock [t]: integer interval
    of at least one day, started at a time stamp no later than [t], next
    date within the range of [Date]. *)
Definition validAt (t : Z) (r : Reminder) : Prop :=
  exists j s,
    interval r = Number (Num j)
    /\ startDate r = Number (Num s)
    /\ 1 <= j /\ 0 <= s <= t /\ t + j * msInDay <= maxTime.

(** The reply holds the name field: the header, white space, a name free
    of line terminators, white space, and a slash or a line feed. *)
Definition hasNameField (reply : jsstring) : Prop :=
  exists pre w1 name w2 sep post,
    reply = pre ++ nameHeader ++ w1 ++ name ++ w2 ++ sep :: post
    /\ forallb isWhiteSpace w1 = true
    /\ forallb (fun c => negb (isLineTerminator c)) name = true
    /\ forallb isWhiteSpace w2 = true
    /\ isSeparator sep = true.

(** The text starts with a name field. *)
Definition startsNameField (s : jsstring) : Prop :=
  exists w1 name w2 sep post,
    s = nameHeader ++ w1 ++ name ++ w2 ++ sep :: post
    /\ forallb isWhiteSpace w1 = true
    /\ forallb (fun c => negb (isLineTerminator c)) name = true
    /\ forallb isWhiteSpace w2 = true
    /\ isSeparator sep = true.

(** In [pre ++ rest] no name field starts at a position of [pre]: a name
    field that starts [rest] is the first of the text. *)
Definition firstNameFieldAfter (pre rest : jsstring) : Prop :=
  forall pre1 c pre2,
    pre = pre1 ++ c :: pre2 -> ~ startsNameField (c :: pre2 ++ rest).

(** The name line of the example. *)
Definition monsteraLine : jsstring :=
  nameHeader ++ units " Monstera / Monstera deliciosa".

(** No code unit of the text is an asterisk. *)
Definition noAsterisk (s : jsstring) : bool :=
  forallb (fun c => negb (c =? 42)%N) s.

(** A store with one loaded reminder, in which a second plant has been
    identified. *)
Definition fernLoaded : World :=
  set_currentPlant (Some (units "Rose"))
    (exec App_mount
       (mount (3 * msInDay)
          (Some (JSON.Serialized
                   (JSON.Array
                      [JSON.ItemObject
                         {| JSON.plantName := Some (units "Fern");
                            JSON.interval := JSON.Int 7;
                            JSON.startDate := JSON.Int 0;
                            JSON.nextWateringDate := None |}]))))).

(** A stored object from which no date can be computed: no interval, a
    null or zero interval, or no start date. *)
Definition unschedulable (o : JSON.object) : Prop :=
  JSON.interval o = JSON.Absent
  \/ JSON.interval o = JSON.NullNum
  \/ JSON.interval o = JSON.Int 0
  \/ JSON.startDate o = JSON.Absent.

(** The record is what a load at clock [t] makes of its own
    serialization: such are the records a load at [t] has produced. *)
Definition asLoadedAt (t : Z) (d : DerivedReminder) : Prop :=
  reloaded t (Derived d) = d.

(** The handle a send calls the model on. *)
Definition sessionFor (w : World) : Chat :=
  match chatSession w with
  | Some h => h
  | None => ChatHandle (sessions w)
  end.

(** What ends the introduction: a line feed and two asterisks. *)
Definition sectionEnd : jsstring := [10; 42; 42]%N.

(** The reply holds an introduction: the header with its line feed, a
    body, and the end of the section. *)
Definition hasIntroduction (reply : jsstring) : Prop :=
  exists pre body post,
    reply = pre ++ introHeader ++ body ++ sectionEnd ++ post.

(** No code unit of the text is a comma. *)
Definition noComma (s : jsstring) : bool :=
  forallb (fun c => negb (c =? 44)%N) s.

(** No two asterisks follow each other in the text. *)
Definition noBold (s : jsstring) : Prop :=
  forall a b, s <> a ++ bold ++ b.

(** * Properties *)

(** Unfolds a handler down to the world it builds. *)
Ltac run_handler :=
  cbv [exec completion bind gets modify ret
       setIsListening setMessages setUserInput setIsLoading setError
       setPlantName setChatSession createChatSession console_error].

(** Goes through the start positions of a given text before a line: at
    none of them does the text read on as the name header. *)
Ltac no_field_before :=
  match goal with
  | Heq : _ = ?pre1 ++ _ :: _, Hs : _ = nameHeader ++ _ |- False =>
      destruct pre1 as [|? pre1]; cbn in Heq;
      [ first
          [ discriminate Heq
          | injection Heq as <- <-;
            unfold monsteraLine, nameHeader in Hs; cbn in Hs; discriminate Hs ]
      | first [ discriminate Heq | injection Heq as _ Heq; no_field_before ] ]
  end.

(** ** Date arithmetic *)

Lemma msInDay_pos : 0 < msInDay.
Proof. reflexivity. Qed.

Lemma intervalMs_pos (i : Z) : 1 <= i -> 0 < i * msInDay.
Proof. intros Hi. pose proof msInDay_pos. nia. Qed.

(** On integer fields with a non-zero interval the load computation stays
    among the integers. *)
Lemma nextWateringTimestamp_Num (t i s : Z) (name : option jsstring) :
  i <> 0 ->
  nextWateringTimestamp t
    {| plantName := name;
       interval := Number (Num i);
       startDate := Number (Num s) |}
  = Num (s + ((t - s) / (i * msInDay) + 1) * (i * msInDay)).
Proof.
  intros Hi. unfold nextWateringTimestamp. cbn [ToNumber interval startDate].
  cbn [mul sub neg add Math_floor_div].
  assert (Hm : i * msInDay <> 0) by (pose proof msInDay_pos; nia).
  apply Z.eqb_neq in Hm. rewrite Hm. cbn [add mul].
  reflexivity.
Qed.

(** The floor of the quotient brackets the elapsed time. *)
Lemma floor_brackets (a m : Z) :
  0 < m -> m * (a / m) <= a < m * (a / m + 1).
Proof.
  intros Hm. split.
  - apply Z.mul_div_le; assumption.
  - replace (a / m + 1) with (Z.succ (a / m)) by lia.
    apply Z.mul_succ_div_gt; assumption.
Qed.

Lemma parse_Reminder_Int (o : JSON.object) (i s : Z) :
  JSON.interval o = JSON.Int i ->
  JSON.startDate o = JSON.Int s ->
  parse_Reminder o
  = {| plantName := JSON.plantName o;
       interval := Number (Num i);
       startDate := Number (Num s) |}.
Proof. intros Hi Hs. unfold parse_Reminder. rewrite Hi, Hs. reflexivity. Qed.

(** Inside the range of [Date] the clipping of [new Date(value)] keeps the
    value. *)
Lemma Date_new_in_range (z : Z) :
  - maxTime <= z <= maxTime -> Date_new (Num z) = {| getTime := Num z |}.
Proof.
  intros Hz. unfold Date_new.
  replace ((- maxTime <=? z) && (z <=? maxTime)) with true; [reflexivity|].
  symmetry. apply andb_true_iff. split; apply Z.leb_le; lia.
Qed.

(** C1, amended: a reminder with integer interval of at least one day,
    started at a time stamp no later than now, and with now plus one
    interval inside the range of [Date], gets on load the date
    [startDate + (floor ((now - startDate) / intervalMs) + 1) * intervalMs];
    it is a valid date, lies strictly after now and a whole number of
    intervals after [startDate].  With an interval of 7 days and a start
    3 days ago it is 4 days ahead.  Under these bounds every intermediate
    value lies between 0 and 8.64e15. *)
Theorem load_next_watering_in_future
  (w : World) (o : JSON.object) (i s : Z)
  (Hinterval : JSON.interval o = JSON.Int i)
  (Hstart : JSON.startDate o = JSON.Int s)
  (Hi : 1 <= i) (Hs : 0 <= s <= clock w)
  (Hrange : clock w + i * msInDay <= maxTime) :
  (exists t k d,
      nextWateringTimestamp (clock w) (parse_Reminder o) = Num t
      /\ t = s + ((clock w - s) / (i * msInDay) + 1) * (i * msInDay)
      /\ clock w < t
      /\ 1 <= k /\ t = s + k * (i * msInDay)
      /\ completion (withDate (JSON.ItemObject o)) w = Normal d
      /\ reminder d = parse_Reminder o
      /\ getTime (nextWateringDate d) = Num t)
  /\ (forall now name,
        3 * msInDay <= now -> now + 4 * msInDay <= maxTime ->
        nextWateringTimestamp now
          {| plantName := name;
             interval := Number (Num 7);
             startDate := Number (Num (now - 3 * msInDay)) |}
        = Num (now + 4 * msInDay)).
Proof.
  split.
  - pose proof (intervalMs_pos i Hi) as Hm.
    pose proof (floor_brackets (clock w - s) (i * msInDay) Hm) as [Hlo Hhi].
    assert (Hq : 0 <= (clock w - s) / (i * msInDay))
      by (apply Z.div_pos; lia).
    rewrite (parse_Reminder_Int o i s Hinterval Hstart).
    rewrite nextWateringTimestamp_Num by lia.
    set (t := s + ((clock w - s) / (i * msInDay) + 1) * (i * msInDay)).
    assert (Ht : clock w < t <= clock w + i * msInDay) by (unfold t; nia).
    exists t, ((clock w - s) / (i * msInDay) + 1).
    exists {| reminder :=
                {| plantName := JSON.plantName o;
                   interval := Number (Num i);
                   startDate := Number (Num s) |};
              nextWateringDate := {| getTime := Num t |} |}.
    split; [reflexivity|]. split; [reflexivity|].
    split; [lia|]. split; [lia|]. split; [reflexivity|].
    split; [|split; reflexivity].
    unfold withDate, completion, bind, Date_now, gets.
    cbn [fst snd].
    rewrite (parse_Reminder_Int o i s Hinterval Hstart).
    rewrite nextWateringTimestamp_Num by lia.
    fold t. rewrite (Date_new_in_range t) by (unfold maxTime in *; lia).
    destruct (alertDue _ _ _); reflexivity.
  - intros now name _ _. rewrite nextWateringTimestamp_Num by lia.
    f_equal.
    replace (now - (now - 3 * msInDay)) with (3 * msInDay) by lia.
    replace (3 * msInDay / (7 * msInDay)) with 0 by reflexivity.
    lia.
Qed.

Lemma load_next_watering_in_future_witness :
  let w := mount (10 * msInDay) None in
  let o := {| JSON.plantName := Some (units "Fern");
              JSON.interval := JSON.Int 7;
              JSON.startDate := JSON.Int (7 * msInDay);
              JSON.nextWateringDate := None |} in
  (1 <= 7 /\ 0 <= 7 * msInDay <= clock w
   /\ clock w + 7 * msInDay <= maxTime)
  /\ (exists t k d,
        nextWateringTimestamp (clock w) (parse_Reminder o) = Num t
        /\ t = 7 * msInDay
               + ((clock w - 7 * msInDay) / (7 * msInDay) + 1) * (7 * msInDay)
        /\ clock w < t
        /\ 1 <= k /\ t = 7 * msInDay + k * (7 * msInDay)
        /\ completion (withDate (JSON.ItemObject o)) w = Normal d
        /\ reminder d = parse_Reminder o
        /\ getTime (nextWateringDate d) = Num t)
  /\ nextWateringTimestamp (10 * msInDay)
       {| plantName := Some (units "Fern");
          interval := Number (Num 7);
          startDate := Number (Num (10 * msInDay - 3 * msInDay)) |}
     = Num (10 * msInDay + 4 * msInDay).
Proof.
  intros w o.
  assert (Hs : 0 <= 7 * msInDay <= clock w) by (unfold msInDay; cbn; lia).
  assert (Hrange : clock w + 7 * msInDay <= maxTime)
    by (unfold maxTime, msInDay; cbn; lia).
  split; [split; [lia | split; assumption]|].
  destruct (load_next_watering_in_future w o 7 (7 * msInDay)
              eq_refl eq_refl ltac:(lia) Hs Hrange) as [H1 H2].
  split; [exact H1|].
  apply H2; unfold maxTime, msInDay; lia.
Defined.

(** C1, as stated, fails for a long interval: an interval of 100000000
    days, started now, is an integer of at least one day with
    [startDate <= now]; the time stamp computed on load is
    [startDate + 8.64e15], beyond the range of [Date], and the reminder
    gets the invalid date, which is not after now. *)
Lemma load_gives_invalid_date_for_long_interval :
  let now := 1762128000000 in
  let w := mount now None in
  let o := {| JSON.plantName := Some (units "Fern");
              JSON.interval := JSON.Int 100000000;
              JSON.startDate := JSON.Int now;
              JSON.nextWateringDate := None |} in
  1 <= 100000000 /\ now <= clock w
  /\ nextWateringTimestamp (clock w) (parse_Reminder o)
     = Num (now + 100000000 * msInDay)
  /\ exists d,
       completion (withDate (JSON.ItemObject o)) w = Normal d
       /\ getTime (nextWateringDate d) = NaN
       /\ lt (Num (clock w)) (getTime (nextWateringDate d)) = false.
Proof.
  intros now w o.
  split; [lia|]. split; [cbn; lia|]. split; [reflexivity|].
  eexists. split; [reflexivity|]. split; reflexivity.
Qed.

(** ** Sorting *)

Lemma insert_Permutation {A} (compareFn : A -> A -> number) (a : A) (l : list A) :
  Permutation (insert compareFn a l) (a :: l).
Proof.
  induction l as [|b l IH]; cbn [insert].
  - apply Permutation_refl.
  - destruct (gt (compareFn a b) (Num 0)).
    + apply perm_trans with (b :: a :: l).
      * apply perm_skip, IH.
      * apply perm_swap.
    + apply Permutation_refl.
Qed.

Lemma Array_sort_Permutation {A} (compareFn : A -> A -> number) (l : list A) :
  Permutation (Array_sort compareFn l) l.
Proof.
  induction l as [|a l IH]; cbn [Array_sort].
  - apply perm_nil.
  - apply perm_trans with (a :: Array_sort compareFn l).
    + apply insert_Permutation.
    + apply perm_skip, IH.
Qed.

Lemma Array_sort_In {A} (compareFn : A -> A -> number) (l : list A) (x : A) :
  In x (Array_sort compareFn l) <-> In x l.
Proof.
  split; apply Permutation_in.
  - apply Array_sort_Permutation.
  - apply Permutation_sym, Array_sort_Permutation.
Qed.

(** ** The save path *)

(** The state and the stored item after a save that went through. *)
Lemma handleSaveReminder_exec (w : World) (c : N) (name : jsstring)
  (interval : number) :
  currentPlant w = Some (c :: name) ->
  let new := newReminderAt (clock w) (c :: name) interval in
  let kept :=
    filter (fun r => differs (plantName (reminder r)) (Some (c :: name)))
           (reminders w) in
  exec (handleSaveReminder interval) w
  = set_isReminderModalOpen false
      (set_reminders
         (Array_sort byNextWateringDate
            (kept ++ [{| reminder := new;
                         nextWateringDate := nextWateringDate_saved new |}]))
         (set_localStorage
            (Some (JSON_stringify (map Derived kept ++ [Plain new]))) w)).
Proof.
  intros Hname. unfold exec, handleSaveReminder, bind, gets.
  cbn [fst snd]. rewrite Hname. reflexivity.
Qed.

(** Without an identified plant the save returns at once. *)
Lemma handleSaveReminder_no_plant (w : World) (interval : number) :
  currentPlant w = None \/ currentPlant w = Some [] ->
  handleSaveReminder interval w = (Normal tt, w).
Proof.
  intros [H | H]; unfold handleSaveReminder, bind, gets; rewrite H; reflexivity.
Qed.



(** ** The load path *)

Lemma set_timers_same (w : World) : set_timers (timers w) w = w.
Proof. destruct w; reflexivity. Qed.

Lemma withDate_object (o : JSON.object) (w : World) :
  withDate (JSON.ItemObject o) w
  = (Normal (derived (clock w) o),
     set_timers (timers w ++ alertsOf (clock w) o) w).
Proof.
  unfold withDate, alertsOf, derived, bind, Date_now, gets.
  cbn [nextWateringDate].
  destruct (alertDue _ _ _).
  - reflexivity.
  - cbn. rewrite app_nil_r, set_timers_same. reflexivity.
Qed.

Lemma mapM_withDate_objects (os : list JSON.object) (w : World) :
  mapM withDate (map JSON.ItemObject os) w
  = (Normal (map (derived (clock w)) os),
     set_timers (timers w ++ flat_map (alertsOf (clock w)) os) w).
Proof.
  revert w. induction os as [|o os IH]; intros w.
  - cbn. rewrite app_nil_r, set_timers_same. reflexivity.
  - cbn [map mapM flat_map]. unfold bind at 1.
    rewrite withDate_object. unfold bind at 1. rewrite IH.
    cbn [clock timers set_timers ret]. rewrite app_assoc. reflexivity.
Qed.

(** A null element stops the traversal; only alerts were scheduled. *)
Lemma mapM_withDate_null (items : list JSON.item) (w : World) :
  In JSON.ItemNull items ->
  exists alerts,
    mapM withDate items w
    = (Throw TypeError, set_timers (timers w ++ alerts) w).
Proof.
  revert w. induction items as [|item items IH]; intros w Hin.
  - destruct Hin.
  - destruct item as [|o].
    + exists []. cbn. rewrite app_nil_r, set_timers_same. reflexivity.
    + destruct Hin as [Heq|Hin]; [discriminate|].
      destruct (IH (set_timers (timers w ++ alertsOf (clock w) o) w) Hin)
        as [alerts Halerts].
      exists (alertsOf (clock w) o ++ alerts).
      cbn [mapM]. unfold bind at 1. rewrite withDate_object.
      unfold bind at 1. rewrite Halerts.
      cbn [clock timers set_timers]. rewrite app_assoc. reflexivity.
Qed.

(** A load of an array of objects. *)
Lemma loadReminders_objects (w : World) (os : list JSON.object) :
  localStorage w = Some (JSON.Serialized (JSON.Array (map JSON.ItemObject os))) ->
  loadReminders w
  = (Normal tt,
     set_reminders
       (Array_sort byNextWateringDate (map (derived (clock w)) os))
       (set_timers (timers w ++ flat_map (alertsOf (clock w)) os) w)).
Proof.
  intros Hstored.
  unfold loadReminders, bind at 1, localStorage_getItem, gets.
  rewrite Hstored. cbn [nonEmptyText].
  unfold try_catch, bind at 1, JSON_parse, ret, Array_map.
  unfold bind at 1. rewrite mapM_withDate_objects. reflexivity.
Qed.

Lemma alertDue_inAlertWindow (t : Z) (d : DerivedReminder) :
  alertDue t t (nextWateringDate d) = true <-> inAlertWindow t d.
Proof.
  unfold alertDue, inAlertWindow.
  destruct (getTime (nextWateringDate d)) as [next| | |]; cbn.
  - rewrite andb_true_iff, negb_true_iff, Z.ltb_ge, Z.ltb_lt. split.
    + intros [H1 H2]. exists next. split; [reflexivity|lia].
    + intros (n & Hn & H). injection Hn as <-. lia.
  - split; [discriminate|]. intros (n & Hn & _). discriminate.
  - split; [discriminate|]. intros (n & Hn & _). discriminate.
  - split; [intros H; discriminate|]. intros (n & Hn & _). discriminate.
Qed.

(** C7: on a load, the stored records give one derived reminder each,
    with their own fields and (for a valid record whose next date is in
    the range of [Date]) the date of the load formula; each derived
    reminder gets one alert naming its plant when now lies in
    [[nextWateringDate - 1 day, nextWateringDate + 1 day)], and none
    otherwise; the alerts are raised in the stored order and the list kept
    holds the derived reminders. *)
Theorem load_alerts_once_in_window
  (w : World) (os : list JSON.object)
  (Hstored : localStorage w
             = Some (JSON.Serialized (JSON.Array (map JSON.ItemObject os)))) :
  let w' := exec loadReminders w in
  exists (ds : list DerivedReminder) (raised : list (list Timer)),
    Forall2
      (fun o d =>
         reminder d = parse_Reminder o
         /\ forall i s,
              JSON.interval o = JSON.Int i ->
              JSON.startDate o = JSON.Int s ->
              1 <= i -> 0 <= s <= clock w ->
              clock w + i * msInDay <= maxTime ->
              getTime (nextWateringDate d)
              = Num (s + ((clock w - s) / (i * msInDay) + 1) * (i * msInDay)))
      os ds
    /\ Permutation ds (reminders w')
    /\ timers w' = timers w ++ concat raised
    /\ Forall2
         (fun d alerts =>
            (inAlertWindow (clock w) d
             /\ alerts = [WateringAlert (plantName (reminder d))])
            \/ (~ inAlertWindow (clock w) d /\ alerts = []))
         ds raised.
Proof.
  intros w'. unfold w', exec. rewrite (loadReminders_objects w os Hstored).
  cbn [snd reminders timers set_reminders set_timers].
  exists (map (derived (clock w)) os), (map (alertsOf (clock w)) os).
  split.
  { clear Hstored. induction os as [|o os IH]; cbn [map]; constructor.
    - split; [reflexivity|].
      intros i s Hinterval Hstart Hi Hs Hrange.
      unfold derived. cbn [nextWateringDate].
      rewrite (parse_Reminder_Int o i s Hinterval Hstart).
      rewrite nextWateringTimestamp_Num by lia.
      pose proof (intervalMs_pos i Hi) as Hm.
      pose proof (floor_brackets (clock w - s) (i * msInDay) Hm) as [Hlo Hhi].
      rewrite Date_new_in_range; [reflexivity|].
      unfold maxTime in *. nia.
    - apply IH. }
  split; [apply Permutation_sym, Array_sort_Permutation|].
  split; [rewrite flat_map_concat_map; reflexivity|].
  clear Hstored. induction os as [|o os IH]; cbn [map]; constructor.
  - unfold alertsOf.
    destruct (alertDue (clock w) (clock w)
                (nextWateringDate (derived (clock w) o))) eqn:Hdue.
    + left. split; [apply alertDue_inAlertWindow, Hdue | reflexivity].
    + right. split; [|reflexivity].
      intros Hin. apply alertDue_inAlertWindow in Hin. congruence.
  - apply IH.
Qed.

Lemma load_alerts_once_in_window_witness :
  let o := {| JSON.plantName := Some (units "Fern");
              JSON.interval := JSON.Int 2;
              JSON.startDate := JSON.Int 0;
              JSON.nextWateringDate := None |} in
  let w := mount (msInDay + 5)
             (Some (JSON.Serialized (JSON.Array (map JSON.ItemObject [o])))) in
  localStorage w = Some (JSON.Serialized (JSON.Array (map JSON.ItemObject [o])))
  /\ timers (exec loadReminders w) = [WateringAlert (Some (units "Fern"))]
  /\ exists d,
       reminders (exec loadReminders w) = [d]
       /\ reminder d = parse_Reminder o
       /\ getTime (nextWateringDate d) = Num (2 * msInDay).
Proof.
  intros o w. split; [reflexivity|].
  destruct (load_alerts_once_in_window w [o] eq_refl)
    as (ds & raised & Htie & Hperm & Htimers & Halerts).
  inversion Htie as [|o' d os' ds' [Hreminder Hdate] Hrest]; subst.
  inversion Hrest; subst. clear Htie Hrest.
  assert (Hnext : getTime (nextWateringDate d) = Num (2 * msInDay)).
  { rewrite (Hdate 2 0 eq_refl eq_refl);
      [reflexivity | lia | cbn; lia | unfold maxTime, msInDay; cbn; lia]. }
  assert (Hwindow : inAlertWindow (clock w) d).
  { exists (2 * msInDay). split; [exact Hnext | unfold msInDay; cbn; lia]. }
  inversion Halerts as [|d' alerts ds' raised' Hd Hnone]; subst.
  inversion Hnone; subst. clear Halerts Hnone.
  destruct Hd as [[_ ->] | [Hout _]]; [|contradiction].
  split.
  - rewrite Htimers, Hreminder. reflexivity.
  - exists d. split; [|split; assumption].
    apply Permutation_length_1_inv. exact Hperm.
Defined.

(** *** Corrupted items *)

Lemma loadReminders_corrupted (w : World) (stored : JSON.text) :
  localStorage w = Some stored ->
  corrupted stored ->
  exists alerts,
    loadReminders w
    = (Normal tt,
       set_localStorage None
         (set_console (console w ++ [ParseFailure])
            (set_timers (timers w ++ alerts) w))).
Proof.
  intros Hstored Hbad.
  unfold loadReminders, bind at 1, localStorage_getItem, gets.
  rewrite Hstored.
  destruct Hbad as [-> | [-> | (items & -> & Hnull)]].
  - exists []. cbn. rewrite app_nil_r. reflexivity.
  - exists []. cbn. rewrite app_nil_r. reflexivity.
  - destruct (mapM_withDate_null items w Hnull) as [alerts Halerts].
    exists alerts. cbn [nonEmptyText].
    unfold try_catch, bind at 1, JSON_parse, ret, Array_map.
    unfold bind at 1. rewrite Halerts. reflexivity.
Qed.

(** C4, as the code has it: when the stored text does not parse, or is not
    an array, or holds a null record, the load completes normally, removes
    the stored item, leaves the reminder list as it was (empty, on mount),
    shows no error and writes one line to the console.  Records with absent
    or ill-formed fields are not looked at. *)
Theorem load_discards_corrupted_item
  (w : World) (stored : JSON.text)
  (Hstored : localStorage w = Some stored)
  (Hbad : corrupted stored) :
  let w' := exec loadReminders w in
  completion loadReminders w = Normal tt
  /\ localStorage w' = None
  /\ reminders w' = reminders w
  /\ error w' = error w
  /\ console w' = console w ++ [ParseFailure]
  /\ (forall t, reminders (exec App_mount (mount t (Some stored))) = []).
Proof.
  intros w'. unfold w', exec, completion.
  destruct (loadReminders_corrupted w stored Hstored Hbad) as [alerts ->].
  repeat (split; [reflexivity|]).
  intros t. unfold exec, App_mount, bind at 1, createChatSession.
  cbn -[loadReminders].
  match goal with |- context [loadReminders ?w0] =>
    destruct (loadReminders_corrupted w0 stored eq_refl Hbad) as [alerts' ->]
  end.
  reflexivity.
Qed.

Lemma load_discards_corrupted_item_witness :
  let stored := JSON.Serialized (JSON.Array [JSON.ItemNull]) in
  let w := mount 1000 (Some stored) in
  (localStorage w = Some stored /\ corrupted stored)
  /\ completion loadReminders w = Normal tt
  /\ localStorage (exec loadReminders w) = None
  /\ reminders (exec loadReminders w) = reminders w
  /\ error (exec loadReminders w) = error w
  /\ console (exec loadReminders w) = console w ++ [ParseFailure].
Proof.
  intros stored w.
  assert (Hbad : corrupted stored).
  { right. right. exists [JSON.ItemNull]. split; [reflexivity | left; reflexivity]. }
  split; [split; [reflexivity | exact Hbad]|].
  destruct (load_discards_corrupted_item w stored eq_refl Hbad)
    as (H1 & H2 & H3 & H4 & H5 & _).
  repeat split; assumption.
Defined.

(** C4, as stated, fails: a stored record without [interval] and
    [startDate] is kept, with an invalid date, and the item stays. *)
Lemma load_keeps_record_without_fields :
  let stored :=
    JSON.Serialized
      (JSON.Array
         [JSON.ItemObject
            {| JSON.plantName := Some (units "Fern");
               JSON.interval := JSON.Absent;
               JSON.startDate := JSON.Absent;
               JSON.nextWateringDate := None |}]) in
  let w' := exec App_mount (mount 1000 (Some stored)) in
  reminders w'
  = [{| reminder := {| plantName := Some (units "Fern");
                       interval := Undefined;
                       startDate := Undefined |};
        nextWateringDate := {| getTime := NaN |} |}]
  /\ reminders w' <> []
  /\ localStorage w' = Some stored
  /\ console w' = [].
Proof.
  cbv zeta. split; [reflexivity|].
  split; [discriminate|]. split; reflexivity.
Qed.

(** ** What the store writes *)

(** C3 at a store that already holds a reminder: the save writes the kept
    element of the state with its [nextWateringDate], next to the new
    reminder, which has none; a delete of the new one writes the kept
    element in the same way. *)
Theorem save_and_delete_write_nextWateringDate :
  let fern :=
    {| JSON.plantName := Some (units "Fern");
       JSON.interval := JSON.Int 7;
       JSON.startDate := JSON.Int 0;
       JSON.nextWateringDate := Some (JSON.IsoString (7 * msInDay)) |} in
  let rose :=
    {| JSON.plantName := Some (units "Rose");
       JSON.interval := JSON.Int 7;
       JSON.startDate := JSON.Int (3 * msInDay);
       JSON.nextWateringDate := None |} in
  let saved := exec (ReminderModal.clickSave ReminderModal.initial) fernLoaded in
  localStorage saved
  = Some (JSON.Serialized
            (JSON.Array [JSON.ItemObject fern; JSON.ItemObject rose]))
  /\ localStorage (exec (handleDeleteReminder (Some (units "Rose"))) saved)
     = Some (JSON.Serialized (JSON.Array [JSON.ItemObject fern])).
Proof. split; reflexivity. Qed.

(** ** A failed send *)

(** C5: when the model call of a send fails, the turns are again those
    before the send, the error message is set, and the session the call
    was made on stays in place (the one that was there, if there was
    one). *)
Theorem failed_send_restores_turns
  (w : World) (request : SendRequest)
  (Hsent : completion handleSendMessage w = Normal (Some request)) :
  let w1 := exec handleSendMessage w in
  let w2 := exec handleSendMessage_rejected w1 in
  messages w1 = messages w ++ [{| role := user; text := userInput w |}]
  /\ message request = userInput w
  /\ messages w2 = messages w
  /\ error w2 = Some ServerFailed
  /\ chatSession w2 = Some (chat request)
  /\ (forall h, chatSession w = Some h -> chatSession w2 = Some h)
  /\ isLoading w2 = false.
Proof.
  revert Hsent.
  unfold handleSendMessage, handleSendMessage_rejected. run_handler.
  destruct (trim (userInput w)) as [|c rest]; [discriminate|].
  destruct (isLoading w); [discriminate|].
  destruct (isListening w); cbn;
    destruct (chatSession w) as [h|] eqn:Hsession; cbn;
    intros Hsent; injection Hsent as <-; cbn;
    rewrite removelast_last;
    (repeat split; try reflexivity; try (intros; congruence)).
Qed.

Lemma failed_send_restores_turns_witness :
  let w := set_userInput (units "How often should I water it?")
             (set_messages [{| role := model; text := units "A fern." |}]
                (exec App_mount (mount 1000 None))) in
  let request := {| chat := ChatHandle 0;
                    message := units "How often should I water it?" |} in
  completion handleSendMessage w = Normal (Some request)
  /\ messages (exec handleSendMessage_rejected (exec handleSendMessage w))
     = messages w
  /\ error (exec handleSendMessage_rejected (exec handleSendMessage w))
     = Some ServerFailed
  /\ chatSession (exec handleSendMessage_rejected (exec handleSendMessage w))
     = Some (chat request).
Proof.
  intros w request.
  assert (Hsent : completion handleSendMessage w = Normal (Some request))
    by reflexivity.
  split; [exact Hsent|].
  destruct (failed_send_restores_turns w request Hsent)
    as (_ & _ & H3 & H4 & H5 & _).
  repeat split; assumption.
Defined.

(** ** One reminder per plant *)

Lemma jsstring_eqb_eq (a b : jsstring) : jsstring_eqb a b = true <-> a = b.
Proof.
  unfold jsstring_eqb. destruct (list_eq_dec N.eq_dec a b); split;
    congruence || discriminate.
Qed.

Lemma differs_false (p name : option jsstring) :
  differs p name = false <-> p = name.
Proof.
  destruct p as [a|], name as [b|]; cbn; split;
    try discriminate; try reflexivity.
  - rewrite negb_false_iff, jsstring_eqb_eq. congruence.
  - intros H. injection H as ->.
    rewrite negb_false_iff. apply jsstring_eqb_eq. reflexivity.
Qed.

Lemma differs_true (p name : option jsstring) :
  differs p name = true <-> p <> name.
Proof.
  rewrite <- differs_false. destruct (differs p name); split;
    congruence || discriminate.
Qed.

Section Filtering.

Variable name : option jsstring.

Lemma names_others_In (l : list DerivedReminder) (p : option jsstring) :
  In p (names (others name l)) <-> In p (names l) /\ p <> name.
Proof.
  unfold names, others. rewrite !in_map_iff. split.
  - intros (d & <- & Hd). apply filter_In in Hd as [Hin Hdiff].
    split; [exists d; split; [reflexivity | assumption]|].
    apply differs_true, Hdiff.
  - intros [(d & <- & Hin) Hneq]. exists d. split; [reflexivity|].
    apply filter_In. split; [assumption | apply differs_true, Hneq].
Qed.


Lemma others_absent (l : list DerivedReminder) :
  ~ In name (names l) -> others name l = l.
Proof.
  induction l as [|d l IH]; cbn; intros Hnotin; [reflexivity|].
  destruct (differs (plantName (reminder d)) name) eqn:Hd.
  - f_equal. apply IH. tauto.
  - apply differs_false in Hd. tauto.
Qed.

(** With one reminder per plant, the filter drops exactly one element
    when the name is there. *)
Lemma others_length (l : list DerivedReminder) :
  NoDup (names l) -> In name (names l) ->
  S (length (others name l)) = length l.
Proof.
  induction l as [|d l IH]; cbn; intros Hnodup Hin; [destruct Hin|].
  inversion Hnodup as [|? ? Hnotin Hrest]; subst.
  destruct (differs (plantName (reminder d)) name) eqn:Hd.
  - cbn. f_equal. apply IH; [assumption|].
    destruct Hin as [Heq|Hin]; [|assumption].
    apply differs_true in Hd. contradiction.
  - apply differs_false in Hd. do 2 f_equal.
    apply others_absent. rewrite <- Hd. exact Hnotin.
Qed.

End Filtering.

Lemma names_Permutation (l l' : list DerivedReminder) :
  Permutation l l' -> Permutation (names l) (names l').
Proof. apply Permutation_map. Qed.


Lemma names_derived (t : Z) (os : list JSON.object) :
  names (map (derived t) os) = map JSON.plantName os.
Proof. unfold names. rewrite map_map. reflexivity. Qed.

Lemma handleDeleteReminder_exec (w : World) (name : option jsstring) :
  exec (handleDeleteReminder name) w
  = set_reminders (others name (reminders w))
      (set_localStorage
         (Some (JSON_stringify (map Derived (others name (reminders w))))) w).
Proof. reflexivity. Qed.



(** ** Sorted loads *)

Lemma dueBefore_trans (a b c : DerivedReminder) :
  dueBefore a b -> dueBefore b c -> dueBefore a c.
Proof.
  intros (x & y & Hx & Hy & Hxy) (y' & z & Hy' & Hz & Hyz).
  exists x, z. repeat split; try assumption.
  rewrite Hy in Hy'. injection Hy' as <-. lia.
Qed.

(** On valid dates the comparison function decides the order. *)
Lemma byNextWateringDate_order (a b : DerivedReminder) :
  hasValidDate a -> hasValidDate b ->
  if gt (byNextWateringDate a b) (Num 0) then dueBefore b a else dueBefore a b.
Proof.
  intros [x Hx] [y Hy]. unfold byNextWateringDate. rewrite Hx, Hy. cbn.
  destruct (0 <? x + - y) eqn:Hlt.
  - apply Z.ltb_lt in Hlt. exists y, x. repeat split; try assumption. lia.
  - apply Z.ltb_ge in Hlt. exists x, y. repeat split; try assumption. lia.
Qed.

Lemma insert_ascending (a : DerivedReminder) (l : list DerivedReminder) :
  hasValidDate a -> Forall hasValidDate l ->
  ascending l -> ascending (insert byNextWateringDate a l).
Proof.
  intros Ha. induction l as [|b l IH]; intros Hl Hsorted; cbn [insert].
  - constructor; constructor.
  - inversion Hl as [|? ? Hb Hl']; subst.
    inversion Hsorted as [|? ? Hsorted' Hall]; subst.
    pose proof (byNextWateringDate_order a b Ha Hb) as Horder.
    destruct (gt (byNextWateringDate a b) (Num 0)).
    + constructor; [apply IH; assumption|].
      apply Forall_forall. intros d Hd.
      apply (Permutation_in _ (insert_Permutation byNextWateringDate a l)) in Hd.
      destruct Hd as [<- | Hd]; [assumption|].
      rewrite Forall_forall in Hall. apply Hall, Hd.
    + constructor; [assumption|].
      constructor; [assumption|].
      apply Forall_forall. intros d Hd. rewrite Forall_forall in Hall.
      apply dueBefore_trans with b; [assumption | apply Hall, Hd].
Qed.

Lemma Array_sort_ascending (l : list DerivedReminder) :
  Forall hasValidDate l -> ascending (Array_sort byNextWateringDate l).
Proof.
  induction l as [|a l IH]; intros Hl; cbn [Array_sort].
  - constructor.
  - inversion Hl as [|? ? Ha Hl']; subst.
    apply insert_ascending; [assumption | | apply IH, Hl'].
    apply Forall_forall. intros d Hd. apply Array_sort_In in Hd.
    rewrite Forall_forall in Hl'. apply Hl', Hd.
Qed.

(** ** Save, then load *)

Lemma validAt_parse_stringify (t : Z) (r : Reminder) :
  validAt t r -> parse_Reminder (stringify_Reminder r) = r.
Proof.
  intros (j & s & Hj & Hs & _). destruct r as [p iv sd]. cbn in *.
  subst. reflexivity.
Qed.

Lemma validAt_hasValidDate (t : Z) (r : Reminder) :
  validAt t r ->
  exists x, getTime (Date_new (nextWateringTimestamp t r)) = Num x.
Proof.
  intros (j & s & Hj & Hs & Hj1 & Hst & Hmax).
  destruct r as [p iv sd]. cbn in Hj, Hs. subst.
  rewrite nextWateringTimestamp_Num by lia.
  pose proof (intervalMs_pos j Hj1) as Hm.
  pose proof (floor_brackets (t - s) (j * msInDay) Hm) as [Hlo Hhi].
  set (x := s + ((t - s) / (j * msInDay) + 1) * (j * msInDay)).
  assert (Hx : t < x <= t + j * msInDay) by (unfold x; nia).
  exists x. unfold Date_new.
  replace ((- maxTime <=? x) && (x <=? maxTime)) with true; [reflexivity|].
  symmetry. apply andb_true_iff. split; apply Z.leb_le; lia.
Qed.

Lemma filter_length_Permutation {A} (f : A -> bool) (l l' : list A) :
  Permutation l l' -> length (filter f l) = length (filter f l').
Proof.
  induction 1 as [|x l l' _ IH|x y l|l l' l'' _ IH1 _ IH2]; cbn.
  - reflexivity.
  - destruct (f x); cbn; congruence.
  - destruct (f x), (f y); reflexivity.
  - congruence.
Qed.

Lemma reloaded_plantName (t : Z) (d : DerivedReminder) :
  plantName (reminder (reloaded t (Derived d))) = plantName (reminder d).
Proof. reflexivity. Qed.

(** C2, amended: when the reminders held are valid (integer interval of
    at least one day, start at a time stamp in the past, next date in the
    range of [Date]) and the saved interval keeps the next date in that
    range, a load after a save of [name] with interval [i] returns exactly
    one record under that name, with the saved interval; it returns the
    current records, ascending by [nextWateringDate]. *)
Theorem save_then_load_round_trip
  (w w0 : World) (c : N) (name : jsstring) (i : Z)
  (Hplant : currentPlant w = Some (c :: name))
  (Hi : 1 <= i)
  (Hstored : localStorage w0
             = localStorage (exec (handleSaveReminder (Num i)) w))
  (Hlater : 0 <= clock w <= clock w0)
  (Hrange : clock w0 + i * msInDay <= maxTime)
  (Hvalid : Forall (fun d => validAt (clock w0) (reminder d)) (reminders w)) :
  let loaded := reminders (exec loadReminders w0) in
  length (filter (named (c :: name)) loaded) = 1%nat
  /\ (forall d, In d loaded ->
        plantName (reminder d) = Some (c :: name) ->
        interval (reminder d) = Number (Num i))
  /\ Permutation (map reminder loaded)
       (map reminder (reminders (exec (handleSaveReminder (Num i)) w)))
  /\ ascending loaded.
Proof.
  intros loaded.
  rewrite (handleSaveReminder_exec w c name (Num i) Hplant) in *.
  cbn [localStorage reminders set_isReminderModalOpen set_reminders
       set_localStorage] in *.
  fold (others (Some (c :: name)) (reminders w)) in *.
  set (new := newReminderAt (clock w) (c :: name) (Num i)) in *.
  set (kept := others (Some (c :: name)) (reminders w)) in *.
  set (t0 := clock w0) in *.
  assert (Hloaded : loaded
            = Array_sort byNextWateringDate
                (map (reloaded t0) (map Derived kept ++ [Plain new]))).
  { unfold loaded, exec. unfold JSON_stringify in Hstored.
    rewrite (loadReminders_objects w0 _ Hstored).
    cbn [snd reminders set_reminders]. rewrite map_map. reflexivity. }
  assert (Hkept_valid : Forall (fun d => validAt t0 (reminder d)) kept).
  { unfold kept, others. apply Forall_forall. intros d Hd.
    apply filter_In in Hd as [Hd _].
    rewrite Forall_forall in Hvalid. apply Hvalid, Hd. }
  assert (Hnew_valid : validAt t0 new).
  { exists i, (clock w). repeat split; try reflexivity; lia. }
  assert (Hperm : Permutation loaded
            (map (reloaded t0) (map Derived kept ++ [Plain new]))).
  { rewrite Hloaded. apply Array_sort_Permutation. }
  split.
  { rewrite (filter_length_Permutation _ _ _ Hperm).
    rewrite map_app, filter_app, length_app.
    replace (filter (named (c :: name)) (map (reloaded t0) (map Derived kept)))
      with (@nil DerivedReminder).
    - assert (Hnew : named (c :: name) (reloaded t0 (Plain new)) = true).
      { unfold named.
        change (plantName (reminder (reloaded t0 (Plain new))))
          with (Some (c :: name)).
        rewrite (proj2 (differs_false _ _) eq_refl). reflexivity. }
      cbn [map filter]. rewrite Hnew. reflexivity.
    - symmetry. rewrite map_map.
      assert (Hall : forall d, In d kept -> named (c :: name) d = false).
      { intros d Hd. unfold kept, others in Hd.
        apply filter_In in Hd as [_ Hd]. unfold named.
        apply negb_false_iff. exact Hd. }
      clear -Hall. induction kept as [|d l IH]; [reflexivity|].
      cbn [map filter]. unfold named at 1. rewrite reloaded_plantName.
      fold (named (c :: name) d). rewrite (Hall d (or_introl eq_refl)).
      apply IH. intros d' Hd'. apply Hall. right. exact Hd'. }
  split.
  { intros d Hd Hname.
    apply (Permutation_in _ Hperm) in Hd.
    rewrite map_app, map_map in Hd. apply in_app_or in Hd.
    destruct Hd as [Hd | [<- | []]]; [|reflexivity].
    apply in_map_iff in Hd as (k & <- & Hk). exfalso.
    rewrite reloaded_plantName in Hname.
    unfold kept, others in Hk. apply filter_In in Hk as [_ Hk].
    apply differs_true in Hk. contradiction. }
  split.
  { apply perm_trans with
      (map reminder (map (reloaded t0) (map Derived kept ++ [Plain new]))).
    - apply Permutation_map, Hperm.
    - assert (Hmap : map reminder
                       (map (reloaded t0) (map Derived kept ++ [Plain new]))
                     = map reminder kept ++ [new]).
      { rewrite !map_app, !map_map. f_equal.
        apply map_ext_in. intros d Hd.
        rewrite Forall_forall in Hkept_valid.
        apply (validAt_parse_stringify t0 (reminder d)), Hkept_valid, Hd. }
      rewrite Hmap.
      replace (map reminder kept ++ [new])
        with (map reminder
                (kept ++ [{| reminder := new;
                             nextWateringDate := nextWateringDate_saved new |}]))
        by (rewrite map_app; reflexivity).
      apply Permutation_map, Permutation_sym, Array_sort_Permutation. }
  rewrite Hloaded. apply Array_sort_ascending.
  rewrite map_app. apply Forall_app. split.
  - rewrite map_map. apply Forall_forall. intros d Hd.
    apply in_map_iff in Hd as (k & <- & Hk).
    rewrite Forall_forall in Hkept_valid. specialize (Hkept_valid k Hk).
    unfold hasValidDate, reloaded, derived. cbn [nextWateringDate stringify_Entry].
    change (parse_Reminder (stringify_DerivedReminder k))
      with (parse_Reminder (stringify_Reminder (reminder k))).
    rewrite (validAt_parse_stringify t0) by assumption.
    apply validAt_hasValidDate; assumption.
  - constructor; [|constructor].
    unfold hasValidDate, reloaded, derived. cbn [nextWateringDate stringify_Entry].
    rewrite (validAt_parse_stringify t0) by assumption.
    apply validAt_hasValidDate; assumption.
Qed.

Lemma save_then_load_round_trip_witness :
  let w := fernLoaded in
  let w0 := mount (5 * msInDay)
              (localStorage (exec (handleSaveReminder (Num 7)) w)) in
  let loaded := reminders (exec loadReminders w0) in
  (currentPlant w = Some (units "Rose")
   /\ 1 <= 7
   /\ localStorage w0 = localStorage (exec (handleSaveReminder (Num 7)) w)
   /\ 0 <= clock w <= clock w0
   /\ clock w0 + 7 * msInDay <= maxTime
   /\ Forall (fun d => validAt (clock w0) (reminder d)) (reminders w))
  /\ length (filter (named (units "Rose")) loaded) = 1%nat
  /\ (forall d, In d loaded ->
        plantName (reminder d) = Some (units "Rose") ->
        interval (reminder d) = Number (Num 7))
  /\ Permutation (map reminder loaded)
       (map reminder (reminders (exec (handleSaveReminder (Num 7)) w)))
  /\ ascending loaded.
Proof.
  intros w w0 loaded.
  assert (Hlater : 0 <= clock w <= clock w0) by (cbn; lia).
  assert (Hrange : clock w0 + 7 * msInDay <= maxTime)
    by (unfold maxTime, msInDay; cbn; lia).
  assert (Hvalid : Forall (fun d => validAt (clock w0) (reminder d))
                     (reminders w)).
  { constructor; [|constructor]. exists 7, 0.
    repeat split; try reflexivity; unfold maxTime, msInDay; cbn; lia. }
  split.
  { repeat split; try reflexivity; try assumption; try lia. }
  apply (save_then_load_round_trip w w0 82%N (units "ose") 7
           eq_refl ltac:(lia) eq_refl Hlater Hrange Hvalid).
Defined.

(** C2, as stated, fails for an interval the modal accepts: with
    100000000 typed and saved for a second plant, the stored record has an
    integer interval of at least one day, yet the next load computes for
    it a time stamp beyond the range of [Date]; the loaded list holds a
    record with the invalid date beside one with a valid date, and in no
    order is it ascending by [nextWateringDate]. *)
Lemma save_then_load_unsorted_for_long_interval :
  let modal := ReminderModal.typed [units "100000000"] in
  let w := exec (ReminderModal.clickSave modal) fernLoaded in
  let loaded := reminders (exec loadReminders
                             (mount (5 * msInDay) (localStorage w))) in
  ReminderModal.handleSave modal = Some (Num 100000000)
  /\ length loaded = 2%nat
  /\ (exists d, In d loaded
                /\ plantName (reminder d) = Some (units "Rose")
                /\ interval (reminder d) = Number (Num 100000000)
                /\ getTime (nextWateringDate d) = NaN)
  /\ ~ ascending loaded.
Proof.
  intros modal w loaded.
  split; [reflexivity|]. split; [reflexivity|].
  split.
  - vm_compute.
    first
      [ eexists; split; [left; reflexivity | repeat split; reflexivity]
      | eexists; split; [right; left; reflexivity | repeat split; reflexivity] ].
  - intros Hsorted. vm_compute in Hsorted.
    inversion Hsorted as [|a l _ Hall]; subst.
    inversion Hall as [|b l' Hdue _]; subst.
    destruct Hdue as (x & y & Hx & Hy & _).
    cbn in Hx, Hy. try discriminate Hx. discriminate Hy.
Qed.

(** ** The interval boundary *)

Lemma roundToDouble_exact (n : Z) :
  Z.abs n <= 2 ^ 53 -> roundToDouble n = Num n.
Proof.
  intros Hn. unfold roundToDouble.
  replace (Z.abs n <=? 2 ^ 53) with true; [reflexivity|].
  symmetry. apply Z.leb_le, Hn.
Qed.

Lemma roundToDouble_cases (n : Z) :
  (exists z, roundToDouble n = Num z)
  \/ roundToDouble n = PosInf \/ roundToDouble n = NegInf.
Proof.
  unfold roundToDouble.
  destruct (Z.abs n <=? 2 ^ 53); [left; eexists; reflexivity|].
  cbv zeta.
  match goal with |- context [if 2 ^ 1024 <=? ?v then _ else _] =>
    destruct (2 ^ 1024 <=? v)
  end.
  - right. destruct (0 <? n); [left | right]; reflexivity.
  - left. eexists. reflexivity.
Qed.

Lemma parseInt_cases (s : jsstring) :
  parseInt s = NaN
  \/ (exists z, parseInt s = Num z)
  \/ parseInt s = PosInf \/ parseInt s = NegInf.
Proof.
  unfold parseInt.
  match goal with
  | |- context [let '(a, b) := ?X in _] => destruct X as [sign s2]
  end.
  destruct (parseDigits s2 None) as [n|]; [right | left; reflexivity].
  apply roundToDouble_cases.
Qed.

(** What [onChange] leaves in the state is a non-zero integer or an
    infinity. *)
Lemma onChange_interval (value : jsstring) (s : ReminderModal.State) :
  let i := ReminderModal.interval (ReminderModal.onChange value s) in
  (exists z, i = Num z /\ z <> 0) \/ i = PosInf \/ i = NegInf.
Proof.
  unfold ReminderModal.onChange, or_else. cbn [ReminderModal.interval].
  destruct (parseInt_cases value) as [-> | [[z ->] | [-> | ->]]]; cbn.
  - left. exists 1. split; [reflexivity | lia].
  - left. destruct (z =? 0) eqn:Hz; cbn.
    + exists 1. split; [reflexivity | lia].
    + exists z. split; [reflexivity | apply Z.eqb_neq, Hz].
  - right. left. reflexivity.
  - right. right. reflexivity.
Qed.

Lemma typed_interval (values : list jsstring) :
  let i := ReminderModal.interval (ReminderModal.typed values) in
  (exists z, i = Num z /\ z <> 0) \/ i = PosInf \/ i = NegInf.
Proof.
  unfold ReminderModal.typed.
  assert (Hinit :
            let i := ReminderModal.interval ReminderModal.initial in
            (exists z, i = Num z /\ z <> 0) \/ i = PosInf \/ i = NegInf)
    by (left; exists 7; split; [reflexivity | lia]).
  revert Hinit. generalize ReminderModal.initial.
  induction values as [|v values IH]; intros s Hs; cbn [fold_left].
  - exact Hs.
  - apply IH, onChange_interval.
Qed.

(** Whatever is typed, the modal hands over an integer of at least one
    day or positive infinity, and nothing else. *)
Lemma handleSave_typed (values : list jsstring) (i : number) :
  ReminderModal.handleSave (ReminderModal.typed values) = Some i ->
  (exists z, i = Num z /\ 1 <= z) \/ i = PosInf.
Proof.
  unfold ReminderModal.handleSave.
  destruct (typed_interval values) as [(z & -> & Hz) | [-> | ->]]; cbn.
  - destruct (0 <? z) eqn:Hpos; [|discriminate].
    intros H. injection H as <-. apply Z.ltb_lt in Hpos.
    left. exists z. split; [reflexivity | lia].
  - intros H. injection H as <-. right. reflexivity.
  - discriminate.
Qed.

(** Input without a number, and zero, become 1 in the state of the modal;
    a state that is not positive makes the save button do nothing. *)
Lemma modal_rejects_or_coerces :
  (forall value s,
      parseInt value = NaN \/ parseInt value = Num 0 ->
      ReminderModal.interval (ReminderModal.onChange value s) = Num 1)
  /\ (forall s z w,
        ReminderModal.interval s = Num z -> z <= 0 ->
        ReminderModal.handleSave s = None
        /\ exec (ReminderModal.clickSave s) w = w).
Proof.
  split.
  - intros value s [H | H];
      unfold ReminderModal.onChange, or_else; cbn [ReminderModal.interval];
      rewrite H; reflexivity.
  - intros s z w Hs Hz.
    assert (Hnone : ReminderModal.handleSave s = None).
    { unfold ReminderModal.handleSave. rewrite Hs. cbn.
      replace (0 <? z) with false by (symmetry; apply Z.ltb_ge; lia).
      reflexivity. }
    split; [exact Hnone|].
    unfold ReminderModal.clickSave. rewrite Hnone. reflexivity.
Qed.

(** C8: the code misses the claim on a number too long for a double.
    With 400 digits 9 typed into the input, [parseInt] gives [Infinity],
    which [|| 1] keeps and [interval > 0] lets through: the save button
    hands [Infinity] to [handleSaveReminder].  The reminder saved has
    interval [Infinity] and the invalid date; the stored record has
    interval [null]; on the next load the interval in milliseconds is 0,
    the division is by zero, and the reminder gets the invalid date. *)
Theorem modal_hands_over_infinity :
  let value := repeat 57%N 400 in
  let modal := ReminderModal.typed [value] in
  let w := exec (ReminderModal.clickSave modal) fernLoaded in
  let w0 := mount (5 * msInDay) (localStorage w) in
  parseInt value = PosInf
  /\ ReminderModal.interval modal = PosInf
  /\ ReminderModal.handleSave modal = Some PosInf
  /\ In {| reminder := newReminderAt (clock fernLoaded) (units "Rose") PosInf;
           nextWateringDate := {| getTime := NaN |} |}
        (reminders w)
  /\ (exists items,
        localStorage w = Some (JSON.Serialized (JSON.Array items))
        /\ In (JSON.ItemObject
                 {| JSON.plantName := Some (units "Rose");
                    JSON.interval := JSON.NullNum;
                    JSON.startDate := JSON.Int (clock fernLoaded);
                    JSON.nextWateringDate := None |})
              items)
  /\ (exists d,
        In d (reminders (exec loadReminders w0))
        /\ plantName (reminder d) = Some (units "Rose")
        /\ interval (reminder d) = Null
        /\ mul (ToNumber (interval (reminder d))) (Num msInDay) = Num 0
        /\ Math_floor_div
             (sub (Num (clock w0)) (ToNumber (startDate (reminder d))))
             (Num 0) = PosInf
        /\ nextWateringTimestamp (clock w0) (reminder d) = NaN
        /\ getTime (nextWateringDate d) = NaN).
Proof.
  intros value modal w w0.
  assert (Hparse : parseInt value = PosInf) by (vm_compute; reflexivity).
  assert (Hmodal : ReminderModal.interval modal = PosInf).
  { unfold modal, ReminderModal.typed, ReminderModal.onChange.
    cbn [fold_left ReminderModal.interval]. rewrite Hparse. reflexivity. }
  assert (Hsave : ReminderModal.handleSave modal = Some PosInf).
  { unfold ReminderModal.handleSave. rewrite Hmodal. reflexivity. }
  assert (Hw : w = exec (handleSaveReminder PosInf) fernLoaded).
  { unfold w, ReminderModal.clickSave. rewrite Hsave. reflexivity. }
  split; [exact Hparse|]. split; [exact Hmodal|]. split; [exact Hsave|].
  split.
  { rewrite Hw. vm_compute. tauto. }
  split.
  { rewrite Hw. eexists. split; [reflexivity|]. vm_compute. tauto. }
  unfold w0. rewrite Hw.
  match goal with
  | |- exists d, In d ?l /\ _ =>
      let l' := eval vm_compute in l in
      replace l with l' by (vm_compute; reflexivity)
  end.
  first
    [ eexists; split; [left; reflexivity | repeat split; reflexivity]
    | eexists; split; [right; left; reflexivity | repeat split; reflexivity] ].
Qed.

(** ** The name of the plant *)

Section MatcherSoundness.

Context {R : Type}.

Lemma literal_sound (l : jsstring) (k : jsstring -> option R)
  (s : jsstring) (r : R) :
  literal l k s = Some r ->
  exists s', s = l ++ s' /\ k s' = Some r.
Proof.
  revert s. induction l as [|c l IH]; intros s H; cbn in H.
  - exists s. split; [reflexivity | exact H].
  - destruct s as [|d s]; [discriminate|].
    destruct (c =? d)%N eqn:Hcd; [|discriminate].
    apply N.eqb_eq in Hcd. subst d.
    destruct (IH s H) as (s' & -> & Hk).
    exists s'. split; [reflexivity | exact Hk].
Qed.

Lemma greedyStar_sound (p : N -> bool) (k : jsstring -> option R)
  (s : jsstring) (r : R) :
  greedyStar p k s = Some r ->
  exists run s', s = run ++ s' /\ forallb p run = true /\ k s' = Some r.
Proof.
  induction s as [|c s IH]; cbn; intros H.
  - exists [], []. repeat split. exact H.
  - destruct (p c) eqn:Hc.
    + destruct (greedyStar p k s) as [r'|] eqn:Hstar.
      * injection H as ->.
        destruct (IH eq_refl) as (run & s' & -> & Hrun & Hk).
        exists (c :: run), s'. cbn. rewrite Hc, Hrun. repeat split. exact Hk.
      * exists [], (c :: s). repeat split. exact H.
    + exists [], (c :: s). repeat split. exact H.
Qed.

Lemma lazyStar_sound (p : N -> bool) (k : jsstring -> jsstring -> option R)
  (seen s : jsstring) (r : R) :
  lazyStar p k seen s = Some r ->
  exists run s',
    s = run ++ s' /\ forallb p run = true /\ k (seen ++ run) s' = Some r.
Proof.
  revert seen. induction s as [|c s IH]; intros seen H; cbn in H.
  - destruct (k seen []) as [r'|] eqn:Hk; [|discriminate].
    injection H as ->. exists [], []. rewrite (app_nil_r seen).
    repeat split. exact Hk.
  - destruct (k seen (c :: s)) as [r'|] eqn:Hk.
    + injection H as ->. exists [], (c :: s). rewrite (app_nil_r seen).
      repeat split. exact Hk.
    + destruct (p c) eqn:Hc; [|discriminate].
      destruct (IH _ H) as (run & s' & -> & Hrun & Hk').
      exists (c :: run), s'. cbn. rewrite Hc, Hrun.
      rewrite <- app_assoc in Hk'. repeat split. exact Hk'.
Qed.

Lemma oneOf_sound (p : N -> bool) (k : jsstring -> option R)
  (s : jsstring) (r : R) :
  oneOf p k s = Some r ->
  exists c s', s = c :: s' /\ p c = true /\ k s' = Some r.
Proof.
  destruct s as [|c s]; cbn; [discriminate|].
  destruct (p c) eqn:Hc; [|discriminate].
  intros H. exists c, s. repeat split; assumption.
Qed.

End MatcherSoundness.

Lemma nameRegExp_at_sound (s capture : jsstring) :
  nameRegExp_at s = Some capture -> hasNameField s.
Proof.
  unfold nameRegExp_at. intros H.
  apply literal_sound in H as (s1 & -> & H).
  apply greedyStar_sound in H as (w1 & s2 & -> & Hw1 & H).
  apply lazyStar_sound in H as (name & s3 & -> & Hname & H).
  apply greedyStar_sound in H as (w2 & s4 & -> & Hw2 & H).
  apply oneOf_sound in H as (sep & post & -> & Hsep & _).
  exists [], w1, name, w2, sep, post. repeat split; assumption.
Qed.

Lemma nameMatch_sound (s capture : jsstring) :
  nameMatch s = Some capture -> hasNameField s.
Proof.
  induction s as [|c s IH]; cbn [nameMatch].
  - destruct (nameRegExp_at []) eqn:Hat; [|discriminate].
    intros _. apply (nameRegExp_at_sound _ _ Hat).
  - destruct (nameRegExp_at (c :: s)) eqn:Hat.
    + intros _. apply (nameRegExp_at_sound _ _ Hat).
    + intros H. destruct (IH H)
        as (pre & w1 & name & w2 & sep & post & -> & Hrest).
      exists (c :: pre), w1, name, w2, sep, post.
      split; [reflexivity | exact Hrest].
Qed.

(** Text without an asterisk cannot start the header. *)
Lemma nameMatch_skip (pre rest : jsstring) :
  noAsterisk pre = true -> nameMatch (pre ++ rest) = nameMatch rest.
Proof.
  induction pre as [|c pre IH]; cbn [noAsterisk forallb app]; intros H.
  - reflexivity.
  - apply andb_true_iff in H as [Hc Hpre].
    apply negb_true_iff in Hc. cbn [nameMatch].
    unfold nameRegExp_at at 1, nameHeader at 1. cbn [literal].
    rewrite N.eqb_sym, Hc. apply IH, Hpre.
Qed.

Lemma nameMatch_monsteraLine (post : jsstring) :
  nameMatch (monsteraLine ++ post) = Some (units "Monstera").
Proof. reflexivity. Qed.

(** The world an identification leaves when the model answers. *)
Lemma identify_exec (w : World) (file : File) (reply : jsstring) :
  image w = Some file ->
  let w' := exec (identify reply) w in
  currentPlant w'
  = match nameMatch reply with
    | Some (c :: capture) => Some (trim (c :: capture))
    | _ => None
    end
  /\ messages w' = [{| role := model; text := reply |}]
  /\ error w' = None
  /\ isLoading w' = false.
Proof.
  intros Himage.
  unfold identify, handleAnalyzeClick, handleAnalyzeClick_fulfilled.
  run_handler.
  rewrite Himage.
  destruct (nameMatch reply) as [[|c capture]|]; cbn; repeat split.
Qed.

Lemma nameRegExp_at_starts (s capture : jsstring) :
  nameRegExp_at s = Some capture -> startsNameField s.
Proof.
  unfold nameRegExp_at. intros H.
  apply literal_sound in H as (s1 & -> & H).
  apply greedyStar_sound in H as (w1 & s2 & -> & Hw1 & H).
  apply lazyStar_sound in H as (name & s3 & -> & Hname & H).
  apply greedyStar_sound in H as (w2 & s4 & -> & Hw2 & H).
  apply oneOf_sound in H as (sep & post & -> & Hsep & _).
  exists w1, name, w2, sep, post. repeat split; assumption.
Qed.

(** Start positions at which no name field starts are passed over. *)
Lemma nameMatch_first (pre rest : jsstring) :
  firstNameFieldAfter pre rest -> nameMatch (pre ++ rest) = nameMatch rest.
Proof.
  induction pre as [|c pre IH]; intros Hfirst; [reflexivity|].
  cbn [app nameMatch].
  destruct (nameRegExp_at (c :: pre ++ rest)) as [capture|] eqn:Hat.
  - exfalso. apply (Hfirst [] c pre eq_refl).
    apply (nameRegExp_at_starts _ _ Hat).
  - apply IH. intros pre1 d pre2 Heq.
    apply (Hfirst (c :: pre1) d pre2). rewrite Heq. reflexivity.
Qed.

(** C9, amended: a reply that holds the line with the name Monstera, as
    its first name field (no name field starts at a position before the
    line), gives the plant name Monstera; a reply without a name field
    gives no plant name, and the identification still ends with the reply
    as the only turn and without an error. *)
Theorem plant_name_from_reply
  (w : World) (file : File) (Himage : image w = Some file) :
  (forall pre post,
      firstNameFieldAfter pre (monsteraLine ++ post) ->
      currentPlant (exec (identify (pre ++ monsteraLine ++ post)) w)
      = Some (units "Monstera"))
  /\ (forall reply,
        ~ hasNameField reply ->
        let w' := exec (identify reply) w in
        currentPlant w' = None
        /\ messages w' = [{| role := model; text := reply |}]
        /\ error w' = None
        /\ isLoading w' = false).
Proof.
  split.
  - intros pre post Hpre.
    destruct (identify_exec w file (pre ++ monsteraLine ++ post) Himage)
      as (-> & _).
    rewrite (nameMatch_first pre _ Hpre), nameMatch_monsteraLine. reflexivity.
  - intros reply Hnone w'.
    destruct (identify_exec w file reply Himage) as (Hplant & Hrest).
    split; [|exact Hrest].
    unfold w'. rewrite Hplant.
    destruct (nameMatch reply) as [capture|] eqn:Hmatch; [|reflexivity].
    exfalso. apply Hnone, (nameMatch_sound _ _ Hmatch).
Qed.

Lemma plant_name_from_reply_witness :
  let w := exec (handleImageChange (Some (SelectedFile 0)))
             (exec App_mount (mount 1000 None)) in
  let title := units "**Plant report**" ++ [10%N] in
  let reply := units "Please send a sharper photo." in
  (image w = Some (SelectedFile 0)
   /\ firstNameFieldAfter title (monsteraLine ++ [10%N])
   /\ ~ hasNameField reply)
  /\ currentPlant (exec (identify (title ++ monsteraLine ++ [10%N])) w)
     = Some (units "Monstera")
  /\ currentPlant (exec (identify reply) w) = None
  /\ messages (exec (identify reply) w) = [{| role := model; text := reply |}].
Proof.
  intros w title reply.
  assert (Hfirst : firstNameFieldAfter title (monsteraLine ++ [10%N])).
  { intros pre1 c pre2 Heq (w1 & name & w2 & sep & post & Hs & _).
    unfold title in Heq. cbn in Heq. no_field_before. }
  assert (Hnone : ~ hasNameField reply).
  { intros (pre & w1 & name & w2 & sep & post & Heq & _).
    assert (Hin : In 42%N reply).
    { rewrite Heq. apply in_or_app. right. left. reflexivity. }
    cbv in Hin. repeat destruct Hin as [Hin | Hin]; try discriminate Hin.
    exact Hin. }
  split; [split; [reflexivity | split; [exact Hfirst | exact Hnone]]|].
  destruct (plant_name_from_reply w (SelectedFile 0) eq_refl) as [H1 H2].
  split; [apply H1; exact Hfirst|].
  destruct (H2 reply Hnone) as (H3 & H4 & _).
  split; [exact H3 | exact H4].
Defined.

(** C9, as stated, fails when the reply holds an earlier name field: the
    pattern is matched at the leftmost position, so a reply that holds the
    line with the name Monstera after a name field for Rose gives the
    plant name Rose. *)
Lemma plant_name_from_earlier_name_field :
  let w := exec (handleImageChange (Some (SelectedFile 0)))
             (exec App_mount (mount 1000 None)) in
  let pre := nameHeader ++ units " Rose / Rosa" ++ [10%N] in
  image w = Some (SelectedFile 0)
  /\ currentPlant (exec (identify (pre ++ monsteraLine ++ [10%N])) w)
     = Some (units "Rose")
  /\ currentPlant (exec (identify (pre ++ monsteraLine ++ [10%N])) w)
     <> Some (units "Monstera").
Proof.
  intros w pre.
  split; [reflexivity|]. split; [reflexivity|].
  vm_compute. discriminate.
Qed.

(** * Further properties *)

(** ** The schedule *)


(** X1: for time stamps in the range of [Date] (now and the start date
    from 0 on, now plus one interval up to 8.64e15) and an integer
    interval of at least one day, the date of the next watering lies
    after now and at most one interval ahead, whole intervals away from
    the start date, wherever the start date lies, in the future
    included. *)
Theorem next_watering_within_one_interval
  (t i s : Z) (name : option jsstring) (Hi : 1 <= i)
  (Ht : 0 <= t) (Hs : 0 <= s <= maxTime)
  (Hrange : t + i * msInDay <= maxTime) :
  exists x k,
    nextWateringTimestamp t
      {| plantName := name;
         interval := Number (Num i);
         startDate := Number (Num s) |} = Num x
    /\ t < x <= t + i * msInDay
    /\ x = s + k * (i * msInDay)
    /\ getTime (Date_new (Num x)) = Num x.
Proof.
  pose proof (intervalMs_pos i Hi) as Hm.
  pose proof (floor_brackets (t - s) (i * msInDay) Hm) as [Hlo Hhi].
  rewrite nextWateringTimestamp_Num by lia.
  set (x := s + ((t - s) / (i * msInDay) + 1) * (i * msInDay)).
  assert (Hx : t < x <= t + i * msInDay) by (unfold x; nia).
  exists x, ((t - s) / (i * msInDay) + 1).
  split; [reflexivity|]. split; [exact Hx|]. split; [reflexivity|].
  rewrite Date_new_in_range by (unfold maxTime in *; lia). reflexivity.
Qed.

Lemma next_watering_within_one_interval_witness :
  (1 <= 2 /\ 0 <= 1000 /\ 0 <= 5000 <= maxTime
   /\ 1000 + 2 * msInDay <= maxTime)
  /\ exists x k,
       nextWateringTimestamp 1000
         {| plantName := None;
            interval := Number (Num 2);
            startDate := Number (Num 5000) |} = Num x
       /\ 1000 < x <= 1000 + 2 * msInDay
       /\ x = 5000 + k * (2 * msInDay)
       /\ getTime (Date_new (Num x)) = Num x.
Proof.
  assert (Hs : 0 <= 5000 <= maxTime) by (unfold maxTime; lia).
  assert (Hrange : 1000 + 2 * msInDay <= maxTime)
    by (unfold maxTime, msInDay; lia).
  split; [split; [lia | split; [lia | split; assumption]]|].
  apply (next_watering_within_one_interval 1000 2 5000 None);
    [lia | lia | exact Hs | exact Hrange].
Defined.

(** The quotient is determined by the interval the time falls in. *)
Lemma floor_unique (a m q : Z) :
  0 < m -> m * q <= a < m * (q + 1) -> a / m = q.
Proof.
  intros Hm Ha. symmetry. apply (Z.div_unique a m q (a - m * q)); lia.
Qed.

(** X2: for a start at a time stamp from 0 on, no later than now, and
    now plus two intervals in the range of [Date], the date stays the
    same during the whole interval that ends at it, and at that very
    instant it moves on by one interval. *)
Theorem next_watering_stable_until_due
  (t i s x : Z) (name : option jsstring) (Hi : 1 <= i)
  (Hs : 0 <= s <= t)
  (Hrange : t + 2 * (i * msInDay) <= maxTime)
  (Hnext : nextWateringTimestamp t
             {| plantName := name;
                interval := Number (Num i);
                startDate := Number (Num s) |} = Num x) :
  (forall t',
      x - i * msInDay <= t' < x ->
      s <= t'
      /\ nextWateringTimestamp t'
           {| plantName := name;
              interval := Number (Num i);
              startDate := Number (Num s) |} = Num x)
  /\ nextWateringTimestamp x
       {| plantName := name;
          interval := Number (Num i);
          startDate := Number (Num s) |} = Num (x + i * msInDay)
  /\ x + i * msInDay <= maxTime.
Proof.
  pose proof (intervalMs_pos i Hi) as Hm.
  pose proof (floor_brackets (t - s) (i * msInDay) Hm) as [Hlo Hhi].
  assert (Hq : 0 <= (t - s) / (i * msInDay)) by (apply Z.div_pos; lia).
  rewrite nextWateringTimestamp_Num in Hnext by lia.
  injection Hnext as Hx.
  set (m := i * msInDay) in *. set (q := (t - s) / m) in *.
  split; [|split].
  - intros t' Ht'. split; [nia|].
    rewrite nextWateringTimestamp_Num by lia. fold m.
    rewrite (floor_unique (t' - s) m q) by nia. f_equal. lia.
  - rewrite nextWateringTimestamp_Num by lia. fold m.
    rewrite (floor_unique (x - s) m (q + 1)) by nia. f_equal. lia.
  - nia.
Qed.

Lemma next_watering_stable_until_due_witness :
  let r := {| plantName := None;
              interval := Number (Num 2);
              startDate := Number (Num 0) |} in
  (1 <= 2 /\ 0 <= 0 <= msInDay
   /\ msInDay + 2 * (2 * msInDay) <= maxTime
   /\ nextWateringTimestamp msInDay r = Num (2 * msInDay))
  /\ (forall t', 2 * msInDay - 2 * msInDay <= t' < 2 * msInDay ->
        0 <= t' /\ nextWateringTimestamp t' r = Num (2 * msInDay))
  /\ nextWateringTimestamp (2 * msInDay) r = Num (2 * msInDay + 2 * msInDay)
  /\ 2 * msInDay + 2 * msInDay <= maxTime.
Proof.
  intros r.
  assert (Hs : 0 <= 0 <= msInDay) by (unfold msInDay; lia).
  assert (Hrange : msInDay + 2 * (2 * msInDay) <= maxTime)
    by (unfold maxTime, msInDay; lia).
  split; [split; [lia | split; [exact Hs | split; [exact Hrange | reflexivity]]]|].
  apply (next_watering_stable_until_due msInDay 2 0 (2 * msInDay) None);
    [lia | exact Hs | exact Hrange | reflexivity].
Defined.

(** X3: for a start at a time stamp from 0 on, no later than now, and a
    negative integer interval of at most 100000000 days (8.64e15 ms),
    the date is never in the future: it lies before now, by at most the
    length of the interval. *)
Theorem negative_interval_gives_past_date
  (t i s : Z) (name : option jsstring) (Hi : i < 0)
  (Hm : - maxTime <= i * msInDay)
  (Hs : 0 <= s <= t) (Ht : t <= maxTime) :
  exists x,
    nextWateringTimestamp t
      {| plantName := name;
         interval := Number (Num i);
         startDate := Number (Num s) |} = Num x
    /\ t + i * msInDay <= x < t
    /\ getTime (Date_new (Num x)) = Num x.
Proof.
  rewrite nextWateringTimestamp_Num by lia.
  set (x := s + ((t - s) / (i * msInDay) + 1) * (i * msInDay)).
  assert (Hx : t + i * msInDay <= x < t).
  { unfold x. pose proof msInDay_pos as Hd.
    assert (Hneg : i * msInDay < 0) by nia.
    pose proof (Z.div_mod (t - s) (i * msInDay) ltac:(lia)) as Hdiv.
    pose proof (Z.mod_neg_bound (t - s) (i * msInDay) Hneg) as Hmod.
    nia. }
  exists x. split; [reflexivity|]. split; [exact Hx|].
  rewrite Date_new_in_range by (unfold maxTime in *; lia). reflexivity.
Qed.

Lemma negative_interval_gives_past_date_witness :
  (-1 < 0 /\ - maxTime <= -1 * msInDay /\ 0 <= 0 <= 1000 /\ 1000 <= maxTime)
  /\ exists x,
       nextWateringTimestamp 1000
         {| plantName := None;
            interval := Number (Num (-1));
            startDate := Number (Num 0) |} = Num x
       /\ 1000 + -1 * msInDay <= x < 1000
       /\ getTime (Date_new (Num x)) = Num x.
Proof.
  assert (Hm : - maxTime <= -1 * msInDay) by (unfold maxTime, msInDay; lia).
  assert (Ht : 1000 <= maxTime) by (unfold maxTime; lia).
  split; [split; [lia | split; [exact Hm | split; [lia | exact Ht]]]|].
  apply (negative_interval_gives_past_date 1000 (-1) 0 None);
    [lia | exact Hm | lia | exact Ht].
Defined.

(** X4: a stored record without interval, with a null or zero interval, or
    without start date is loaded with the invalid date, and no alert is
    raised for it. *)
Theorem unschedulable_record_gets_invalid_date
  (w : World) (o : JSON.object) (Hbad : unschedulable o) :
  withDate (JSON.ItemObject o) w
  = (Normal {| reminder := parse_Reminder o;
               nextWateringDate := {| getTime := NaN |} |},
     w).
Proof.
  assert (Hnan : forall t, nextWateringTimestamp t (parse_Reminder o) = NaN).
  { intros t. destruct o as [p iv sd nx].
    unfold unschedulable in Hbad.
    unfold nextWateringTimestamp, parse_Reminder. cbn in Hbad |- *.
    destruct Hbad as [-> | [-> | [-> | ->]]]; try destruct sd as [| |s];
      cbn;
      repeat match goal with
             | |- context [if ?b then _ else _] => destruct b
             | |- context [infinity ?b] => destruct b; cbn
             end;
      reflexivity. }
  unfold withDate, bind, Date_now, gets. rewrite Hnan. reflexivity.
Qed.

Lemma unschedulable_record_gets_invalid_date_witness :
  let o := {| JSON.plantName := Some (units "Fern");
              JSON.interval := JSON.Int 0;
              JSON.startDate := JSON.Int 500;
              JSON.nextWateringDate := None |} in
  let w := mount 1000 None in
  unschedulable o
  /\ withDate (JSON.ItemObject o) w
     = (Normal {| reminder := parse_Reminder o;
                  nextWateringDate := {| getTime := NaN |} |},
        w).
Proof.
  intros o w.
  assert (Hbad : unschedulable o) by (right; right; left; reflexivity).
  split; [exact Hbad|].
  apply (unschedulable_record_gets_invalid_date w o Hbad).
Defined.



(** ** Loads *)

Lemma items_null_or_objects (items : list JSON.item) :
  In JSON.ItemNull items \/ exists os, items = map JSON.ItemObject os.
Proof.
  induction items as [|[|o] items IH].
  - right. exists []. reflexivity.
  - left. left. reflexivity.
  - destruct IH as [Hnull | [os ->]].
    + left. right. exact Hnull.
    + right. exists (o :: os). reflexivity.
Qed.

(** X6: whatever is stored, the load completes normally and shows no
    error.  It leaves the stored item and the console alone, unless the
    item is corrupted: then it removes the item, and the list stays as it
    was. *)
Theorem load_only_removes_corrupted_items (w : World) :
  let w' := exec loadReminders w in
  completion loadReminders w = Normal tt
  /\ error w' = error w
  /\ ((localStorage w' = localStorage w /\ console w' = console w)
      \/ (exists stored,
            localStorage w = Some stored /\ corrupted stored
            /\ localStorage w' = None /\ reminders w' = reminders w)).
Proof.
  intros w'. unfold w', exec, completion.
  destruct (localStorage w) as [stored|] eqn:Hstored.
  2:{ unfold loadReminders, bind, localStorage_getItem, gets.
      rewrite Hstored. cbn. rewrite Hstored. repeat split. left. split; reflexivity. }
  assert (Hcases : corrupted stored \/ stored = JSON.EmptyText
                   \/ exists os, stored = JSON.Serialized
                                            (JSON.Array (map JSON.ItemObject os))).
  { destruct stored as [| |[|items]].
    - right. left. reflexivity.
    - left. left. reflexivity.
    - left. right. left. reflexivity.
    - destruct (items_null_or_objects items) as [Hnull | [os ->]].
      + left. right. right. exists items. split; [reflexivity | exact Hnull].
      + right. right. exists os. reflexivity. }
  destruct Hcases as [Hbad | [-> | [os ->]]].
  - destruct (loadReminders_corrupted w stored Hstored Hbad) as [alerts ->].
    cbn. repeat split. right. exists stored. repeat split; assumption.
  - unfold loadReminders, bind, localStorage_getItem, gets.
    rewrite Hstored. cbn. rewrite Hstored. repeat split. left. split; reflexivity.
  - rewrite (loadReminders_objects w os Hstored). cbn. rewrite Hstored.
    repeat split. left. split; reflexivity.
Qed.

Lemma mapM_withDate_until_null
  (os : list JSON.object) (rest : list JSON.item) (w : World) :
  mapM withDate (map JSON.ItemObject os ++ JSON.ItemNull :: rest) w
  = (Throw TypeError,
     set_timers (timers w ++ flat_map (alertsOf (clock w)) os) w).
Proof.
  revert w. induction os as [|o os IH]; intros w.
  - cbn. rewrite app_nil_r, set_timers_same. reflexivity.
  - cbn [map app mapM flat_map]. unfold bind at 1.
    rewrite withDate_object. unfold bind at 1. rewrite IH.
    cbn [clock timers set_timers]. rewrite app_assoc. reflexivity.
Qed.

Lemma loadReminders_until_null
  (w : World) (os : list JSON.object) (rest : list JSON.item) :
  localStorage w
  = Some (JSON.Serialized
            (JSON.Array (map JSON.ItemObject os ++ JSON.ItemNull :: rest))) ->
  loadReminders w
  = (Normal tt,
     set_localStorage None
       (set_console (console w ++ [ParseFailure])
          (set_timers (timers w ++ flat_map (alertsOf (clock w)) os) w))).
Proof.
  intros Hstored.
  unfold loadReminders, bind at 1, localStorage_getItem, gets.
  rewrite Hstored. cbn [nonEmptyText].
  unfold try_catch, bind at 1, JSON_parse, ret, Array_map.
  unfold bind at 1. rewrite mapM_withDate_until_null. reflexivity.
Qed.

(** X7: when a null record stops the load, the alerts of the records
    before it have been raised, as by a load of those records alone; the
    list is not replaced and the item is removed. *)
Theorem alerts_before_null_record_are_raised
  (w : World) (os : list JSON.object) (rest : list JSON.item)
  (Hstored : localStorage w
             = Some (JSON.Serialized
                       (JSON.Array (map JSON.ItemObject os
                                    ++ JSON.ItemNull :: rest)))) :
  let failed := exec loadReminders w in
  let alone :=
    exec loadReminders
      (set_localStorage
         (Some (JSON.Serialized (JSON.Array (map JSON.ItemObject os)))) w) in
  timers failed = timers alone
  /\ reminders failed = reminders w
  /\ localStorage failed = None.
Proof.
  intros failed alone. unfold failed, alone, exec.
  rewrite (loadReminders_objects
             (set_localStorage
                (Some (JSON.Serialized (JSON.Array (map JSON.ItemObject os))))
                w)
             os eq_refl).
  rewrite (loadReminders_until_null w os rest Hstored).
  repeat split.
Qed.

Lemma alerts_before_null_record_are_raised_witness :
  let o := {| JSON.plantName := Some (units "Fern");
              JSON.interval := JSON.Int 1;
              JSON.startDate := JSON.Int 0;
              JSON.nextWateringDate := None |} in
  let stored := JSON.Serialized
                  (JSON.Array (map JSON.ItemObject [o] ++ JSON.ItemNull :: [])) in
  let w := mount 5000 (Some stored) in
  localStorage w = Some stored
  /\ timers (exec loadReminders w) = [WateringAlert (Some (units "Fern"))]
  /\ reminders (exec loadReminders w) = reminders w
  /\ localStorage (exec loadReminders w) = None.
Proof.
  intros o stored w. split; [reflexivity|].
  destruct (alerts_before_null_record_are_raised w [o] [] eq_refl)
    as (H1 & H2 & H3).
  split; [rewrite H1; reflexivity|]. split; assumption.
Defined.

(** X8: a second load at the same clock raises the alerts of the first
    once more and yields the same list, one reminder per stored record:
    alerts are not remembered from one load to the next. *)
Theorem reload_repeats_alerts
  (w : World) (os : list JSON.object)
  (Hstored : localStorage w
             = Some (JSON.Serialized (JSON.Array (map JSON.ItemObject os)))) :
  let w1 := exec loadReminders w in
  let w2 := exec loadReminders w1 in
  exists alerts,
    timers w1 = timers w ++ alerts
    /\ timers w2 = timers w1 ++ alerts
    /\ reminders w2 = reminders w1
    /\ length (reminders w1) = length os.
Proof.
  intros w1 w2. unfold w2, w1, exec.
  rewrite (loadReminders_objects w os Hstored). cbn [snd].
  match goal with
  | |- context [loadReminders ?w0] =>
      rewrite (loadReminders_objects w0 os Hstored)
  end.
  cbn.
  exists (flat_map (alertsOf (clock w)) os).
  repeat split.
  rewrite (Permutation_length (Array_sort_Permutation _ _)).
  apply length_map.
Qed.

Lemma reload_repeats_alerts_witness :
  let o := {| JSON.plantName := Some (units "Fern");
              JSON.interval := JSON.Int 1;
              JSON.startDate := JSON.Int 0;
              JSON.nextWateringDate := None |} in
  let stored := JSON.Serialized (JSON.Array (map JSON.ItemObject [o])) in
  let w := mount 5000 (Some stored) in
  localStorage w = Some stored
  /\ exists alerts,
       timers (exec loadReminders w) = timers w ++ alerts
       /\ timers (exec loadReminders (exec loadReminders w))
          = timers (exec loadReminders w) ++ alerts
       /\ reminders (exec loadReminders (exec loadReminders w))
          = reminders (exec loadReminders w)
       /\ length (reminders (exec loadReminders w)) = length [o].
Proof.
  intros o stored w. split; [reflexivity|].
  apply (reload_repeats_alerts w [o]). reflexivity.
Defined.

(** ** Deleting and saving *)

(** X9: deleting a plant that has no reminder leaves the list as it is;
    the stored item is rewritten from the list all the same. *)
Theorem delete_of_absent_plant_keeps_list
  (w : World) (name : option jsstring)
  (Habsent : ~ In name (names (reminders w))) :
  let w' := exec (handleDeleteReminder name) w in
  reminders w' = reminders w
  /\ localStorage w' = Some (JSON_stringify (map Derived (reminders w))).
Proof.
  intros w'. unfold w'. rewrite handleDeleteReminder_exec.
  cbn [reminders localStorage set_reminders set_localStorage].
  rewrite (others_absent name (reminders w) Habsent). split; reflexivity.
Qed.

Lemma delete_of_absent_plant_keeps_list_witness :
  let w' := exec (handleDeleteReminder (Some (units "Rose"))) fernLoaded in
  ~ In (Some (units "Rose")) (names (reminders fernLoaded))
  /\ reminders w' = reminders fernLoaded
  /\ localStorage w'
     = Some (JSON_stringify (map Derived (reminders fernLoaded))).
Proof.
  intros w'.
  assert (Habsent : ~ In (Some (units "Rose")) (names (reminders fernLoaded))).
  { cbn. intros [H | []]. discriminate H. }
  split; [exact Habsent|].
  apply (delete_of_absent_plant_keeps_list fernLoaded _ Habsent).
Defined.

Lemma ascending_filter (f : DerivedReminder -> bool) (l : list DerivedReminder) :
  ascending l -> ascending (filter f l).
Proof.
  induction 1 as [|a l Hsorted IH Hall]; cbn [filter].
  - constructor.
  - destruct (f a); [|exact IH].
    constructor; [exact IH|].
    apply Forall_forall. intros d Hd. apply filter_In in Hd as [Hd _].
    rewrite Forall_forall in Hall. apply Hall, Hd.
Qed.

(** X10: a delete removes the reminders of the named plant and no other:
    the name is gone, every other reminder stays, an ascending list stays
    ascending, and with one reminder per plant the list gets shorter by
    exactly one when the plant had a reminder. *)
Theorem delete_removes_the_named_reminder
  (w : World) (name : option jsstring) :
  let w' := exec (handleDeleteReminder name) w in
  ~ In name (names (reminders w'))
  /\ (forall d, In d (reminders w') <->
                In d (reminders w) /\ plantName (reminder d) <> name)
  /\ (ascending (reminders w) -> ascending (reminders w'))
  /\ (NoDup (names (reminders w)) -> In name (names (reminders w)) ->
      S (length (reminders w')) = length (reminders w)).
Proof.
  intros w'. unfold w'. rewrite handleDeleteReminder_exec.
  cbn [reminders set_reminders set_localStorage].
  split; [intros Hin; apply names_others_In in Hin; tauto|].
  split.
  { intros d. unfold others. rewrite filter_In, differs_true. tauto. }
  split; [apply ascending_filter | apply others_length].
Qed.

(** X11: after a delete, a load of the item it wrote returns the plants
    that were left, and not the deleted one. *)
Theorem delete_then_load
  (w w0 : World) (name : option jsstring)
  (Hstored : localStorage w0
             = localStorage (exec (handleDeleteReminder name) w)) :
  let loaded := reminders (exec loadReminders w0) in
  Permutation (names loaded)
    (names (reminders (exec (handleDeleteReminder name) w)))
  /\ ~ In name (names loaded).
Proof.
  intros loaded. rewrite handleDeleteReminder_exec in *.
  cbn [reminders localStorage set_reminders set_localStorage] in *.
  unfold JSON_stringify in Hstored.
  assert (Hperm : Permutation (names loaded) (names (others name (reminders w)))).
  { unfold loaded, exec. rewrite (loadReminders_objects w0 _ Hstored).
    cbn [snd reminders set_reminders].
    apply perm_trans with
      (names (map (derived (clock w0))
                (map stringify_Entry (map Derived (others name (reminders w)))))).
    - apply names_Permutation, Array_sort_Permutation.
    - rewrite names_derived, !map_map. apply Permutation_refl. }
  split; [exact Hperm|].
  intros Hin. apply (Permutation_in _ Hperm) in Hin.
  apply names_others_In in Hin. tauto.
Qed.

Lemma delete_then_load_witness :
  let w := fernLoaded in
  let name := Some (units "Fern") in
  let w0 := mount (5 * msInDay)
              (localStorage (exec (handleDeleteReminder name) w)) in
  localStorage w0 = localStorage (exec (handleDeleteReminder name) w)
  /\ Permutation (names (reminders (exec loadReminders w0)))
       (names (reminders (exec (handleDeleteReminder name) w)))
  /\ ~ In name (names (reminders (exec loadReminders w0))).
Proof.
  intros w name w0. split; [reflexivity|].
  apply (delete_then_load w w0 name). reflexivity.
Defined.

(** The save path's date is the one the load path derives, at the clock
    of the save. *)
Lemma nextWateringDate_saved_as_loaded (t i : Z) (name : jsstring) :
  1 <= i ->
  nextWateringDate_saved (newReminderAt t name (Num i))
  = Date_new (nextWateringTimestamp t (newReminderAt t name (Num i))).
Proof.
  intros Hi. unfold newReminderAt.
  rewrite nextWateringTimestamp_Num by lia.
  pose proof (intervalMs_pos i Hi).
  rewrite Z.div_small by lia. unfold nextWateringDate_saved.
  cbn [ToNumber interval startDate add mul].
  do 2 f_equal. lia.
Qed.

(** X12: after a save the list is ascending, when the dates in it were
    valid and the new date is in the range of [Date]; the modal is
    closed. *)
Theorem save_keeps_list_ascending
  (w : World) (c : N) (name : jsstring) (i : Z)
  (Hplant : currentPlant w = Some (c :: name))
  (Hdates : Forall hasValidDate (reminders w))
  (Hrange : - maxTime <= clock w + i * msInDay <= maxTime) :
  let w' := exec (handleSaveReminder (Num i)) w in
  ascending (reminders w') /\ isReminderModalOpen w' = false.
Proof.
  intros w'. unfold w'.
  rewrite (handleSaveReminder_exec w c name (Num i) Hplant).
  cbn [reminders isReminderModalOpen set_isReminderModalOpen set_reminders].
  split; [|reflexivity].
  apply Array_sort_ascending, Forall_app. split.
  - apply Forall_forall. intros d Hd. apply filter_In in Hd as [Hd _].
    rewrite Forall_forall in Hdates. apply Hdates, Hd.
  - constructor; [|constructor].
    exists (clock w + i * msInDay).
    unfold nextWateringDate_saved, newReminderAt, Date_new.
    cbn [ToNumber interval startDate add mul nextWateringDate].
    replace ((- maxTime <=? clock w + i * msInDay)
             && (clock w + i * msInDay <=? maxTime)) with true; [reflexivity|].
    symmetry. apply andb_true_iff. split; apply Z.leb_le; lia.
Qed.

Lemma save_keeps_list_ascending_witness :
  let w := fernLoaded in
  (currentPlant w = Some (units "Rose")
   /\ Forall hasValidDate (reminders w)
   /\ - maxTime <= clock w + 2 * msInDay <= maxTime)
  /\ ascending (reminders (exec (handleSaveReminder (Num 2)) w))
  /\ isReminderModalOpen (exec (handleSaveReminder (Num 2)) w) = false.
Proof.
  intros w.
  assert (Hdates : Forall hasValidDate (reminders w)).
  { constructor; [|constructor]. eexists. reflexivity. }
  assert (Hrange : - maxTime <= clock w + 2 * msInDay <= maxTime)
    by (unfold maxTime, msInDay; cbn; lia).
  split; [split; [reflexivity | split; [exact Hdates | exact Hrange]]|].
  apply (save_keeps_list_ascending w 82%N (units "ose") 2 eq_refl Hdates Hrange).
Defined.

Lemma delete_removes_the_named_reminder_witness :
  let w := fernLoaded in
  let name := Some (units "Fern") in
  let w' := exec (handleDeleteReminder name) w in
  (ascending (reminders w) /\ NoDup (names (reminders w))
   /\ In name (names (reminders w)))
  /\ ~ In name (names (reminders w'))
  /\ ascending (reminders w')
  /\ S (length (reminders w')) = length (reminders w).
Proof.
  intros w name w'.
  assert (Hasc : ascending (reminders w)).
  { cbn. constructor; constructor. }
  assert (Hone : NoDup (names (reminders w))).
  { cbn. constructor; [intros [] | constructor]. }
  assert (Hin : In name (names (reminders w))) by (left; reflexivity).
  split; [split; [exact Hasc | split; [exact Hone | exact Hin]]|].
  destruct (delete_removes_the_named_reminder w name) as (H1 & _ & H3 & H4).
  split; [exact H1|]. split; [apply H3, Hasc | apply H4; assumption].
Defined.

Lemma parse_stringify_parse (j : JSON.num) :
  parse_field (stringify_field (parse_field j)) = parse_field j.
Proof. destruct j; reflexivity. Qed.

(** What a load produces is as loaded. *)
Lemma derived_asLoadedAt (t : Z) (o : JSON.object) :
  asLoadedAt t (derived t o).
Proof.
  unfold asLoadedAt, reloaded, derived. cbn [stringify_Entry].
  assert (Hr : parse_Reminder
                 (stringify_DerivedReminder
                    {| reminder := parse_Reminder o;
                       nextWateringDate :=
                         Date_new (nextWateringTimestamp t (parse_Reminder o)) |})
               = parse_Reminder o).
  { unfold parse_Reminder, stringify_DerivedReminder.
    cbn [reminder plantName interval startDate JSON.plantName JSON.interval
         JSON.startDate].
    rewrite !parse_stringify_parse. reflexivity. }
  rewrite Hr. reflexivity.
Qed.

(** X13: the list in memory after a save is the list a load of the
    written item gives at the same clock, when the list before the save was
    as a load at that clock leaves it and the interval is an integer of at
    least one day.  A load leaves such a list. *)
Theorem save_agrees_with_reload
  (w : World) (c : N) (name : jsstring) (i : Z)
  (Hplant : currentPlant w = Some (c :: name))
  (Hi : 1 <= i)
  (Hfresh : Forall (asLoadedAt (clock w)) (reminders w)) :
  let w' := exec (handleSaveReminder (Num i)) w in
  reminders (exec loadReminders w') = reminders w'
  /\ (forall w0 os,
        localStorage w0
        = Some (JSON.Serialized (JSON.Array (map JSON.ItemObject os))) ->
        Forall (asLoadedAt (clock w0)) (reminders (exec loadReminders w0))).
Proof.
  intros w'. split.
  - unfold w'. rewrite (handleSaveReminder_exec w c name (Num i) Hplant).
    set (new := newReminderAt (clock w) (c :: name) (Num i)).
    set (kept := filter _ (reminders w)).
    unfold exec.
    match goal with
    | |- context [loadReminders ?w1] =>
        rewrite (loadReminders_objects w1
                   (map stringify_Entry (map Derived kept ++ [Plain new]))
                   eq_refl)
    end.
    cbn [snd reminders clock set_reminders set_timers set_isReminderModalOpen
         set_localStorage].
    f_equal. rewrite map_map, map_app, map_map. f_equal.
    + assert (Hkept : Forall (asLoadedAt (clock w)) kept).
      { apply Forall_forall. intros d Hd. apply filter_In in Hd as [Hd _].
        rewrite Forall_forall in Hfresh. apply Hfresh, Hd. }
      clear -Hkept. induction Hkept as [|d l Hd _ IH]; [reflexivity|].
      cbn [map]. rewrite IH. f_equal. exact Hd.
    + cbn [map]. f_equal. unfold derived, new. cbn [stringify_Entry].
      rewrite (nextWateringDate_saved_as_loaded (clock w) i (c :: name) Hi).
      reflexivity.
  - intros w0 os Hstored. unfold exec.
    rewrite (loadReminders_objects w0 os Hstored).
    cbn [snd reminders set_reminders].
    apply Forall_forall. intros d Hd.
    apply Array_sort_In, in_map_iff in Hd as (o & <- & _).
    apply derived_asLoadedAt.
Qed.

Lemma save_agrees_with_reload_witness :
  let w := fernLoaded in
  let w' := exec (handleSaveReminder (Num 2)) w in
  (currentPlant w = Some (units "Rose") /\ 1 <= 2
   /\ Forall (asLoadedAt (clock w)) (reminders w))
  /\ reminders (exec loadReminders w') = reminders w'.
Proof.
  intros w w'.
  assert (Hfresh : Forall (asLoadedAt (clock w)) (reminders w)).
  { constructor; [reflexivity | constructor]. }
  split; [split; [reflexivity | split; [lia | exact Hfresh]]|].
  apply (save_agrees_with_reload w 82%N (units "ose") 2 eq_refl ltac:(lia) Hfresh).
Defined.

Lemma existsb_false {A} (f : A -> bool) (l : list A) :
  (forall x, In x l -> f x = false) -> existsb f l = false.
Proof.
  intros Hall. destruct (existsb f l) eqn:Hex; [|reflexivity].
  apply existsb_exists in Hex as (x & Hx & Hfx).
  rewrite (Hall x Hx) in Hfx. discriminate.
Qed.

(** X14: once a reminder is saved for the identified plant, the plant
    counts as having a reminder, so the button that opens the modal is no
    longer drawn; once the reminder of the identified plant is deleted, it
    no longer counts. *)
Theorem saved_plant_has_reminder
  (w : World) (c : N) (name : jsstring) (interval : number)
  (Hplant : currentPlant w = Some (c :: name)) :
  hasReminderForCurrentPlant (exec (handleSaveReminder interval) w) = true
  /\ hasReminderForCurrentPlant
       (exec (handleDeleteReminder (Some (c :: name))) w) = false
  /\ hasReminderForCurrentPlant
       (exec (handleDeleteReminder (Some (c :: name)))
          (exec (handleSaveReminder interval) w)) = false.
Proof.
  assert (Hdeleted : forall w0,
            currentPlant w0 = Some (c :: name) ->
            hasReminderForCurrentPlant
              (exec (handleDeleteReminder (Some (c :: name))) w0) = false).
  { intros w0 Hw0. rewrite handleDeleteReminder_exec.
    unfold hasReminderForCurrentPlant.
    cbn [currentPlant reminders set_reminders set_localStorage].
    rewrite Hw0. apply existsb_false. intros d Hd.
    apply filter_In in Hd as [_ Hd]. apply negb_false_iff. exact Hd. }
  rewrite (handleSaveReminder_exec w c name interval Hplant).
  split; [|split].
  - unfold hasReminderForCurrentPlant.
    cbn [currentPlant reminders set_isReminderModalOpen set_reminders
         set_localStorage].
    rewrite Hplant. apply existsb_exists.
    eexists. split.
    + apply Array_sort_In, in_or_app. right. left. reflexivity.
    + cbn [reminder plantName newReminderAt].
      apply negb_true_iff, differs_false. reflexivity.
  - apply Hdeleted, Hplant.
  - apply Hdeleted. exact Hplant.
Qed.

Lemma saved_plant_has_reminder_witness :
  currentPlant fernLoaded = Some (units "Rose")
  /\ hasReminderForCurrentPlant fernLoaded = false
  /\ hasReminderForCurrentPlant (exec (handleSaveReminder (Num 2)) fernLoaded)
     = true.
Proof.
  split; [reflexivity|]. split; [reflexivity|].
  apply (saved_plant_has_reminder fernLoaded 82%N (units "ose") (Num 2) eq_refl).
Defined.

(** ** Sends *)

(** A send that goes out: the request and what it does to the state. *)
Lemma handleSendMessage_sent (w : World) (c : N) (rest : jsstring) :
  trim (userInput w) = c :: rest ->
  isLoading w = false ->
  let w1 := exec handleSendMessage w in
  completion handleSendMessage w
  = Normal (Some {| chat := sessionFor w; message := userInput w |})
  /\ messages w1 = messages w ++ [{| role := user; text := userInput w |}]
  /\ userInput w1 = []
  /\ isLoading w1 = true
  /\ error w1 = None
  /\ isListening w1 = false
  /\ chatSession w1 = Some (sessionFor w)
  /\ sessions w1 = match chatSession w with
                   | Some _ => sessions w
                   | None => S (sessions w)
                   end.
Proof.
  intros Htrim Hloading. unfold sessionFor, handleSendMessage. run_handler.
  rewrite Htrim, Hloading.
  destruct (isListening w) eqn:Hlistening; cbn;
    destruct (chatSession w) as [h|] eqn:Hsession; cbn;
    repeat split; assumption.
Qed.

(** A send that does not go out leaves everything as it is. *)
Lemma handleSendMessage_blocked (w : World) :
  trim (userInput w) = [] \/ isLoading w = true ->
  handleSendMessage w = (Normal None, w).
Proof.
  intros H. unfold handleSendMessage, bind, gets.
  destruct (trim (userInput w)) as [|c rest]; [reflexivity|].
  destruct H as [H | H]; [discriminate | rewrite H; reflexivity].
Qed.

(** A request went out exactly when the input was not blank and nothing
    was loading. *)
Lemma handleSendMessage_request (w : World) (request : SendRequest) :
  completion handleSendMessage w = Normal (Some request) ->
  exists c rest, trim (userInput w) = c :: rest /\ isLoading w = false.
Proof.
  unfold completion. intros Hsent.
  destruct (trim (userInput w)) as [|c rest] eqn:Htrim.
  - rewrite handleSendMessage_blocked in Hsent by tauto. discriminate.
  - destruct (isLoading w) eqn:Hloading.
    + rewrite handleSendMessage_blocked in Hsent by tauto. discriminate.
    + exists c, rest. split; reflexivity.
Qed.

(** X15: a send the model answers adds two turns, the text typed and the
    answer, in this order; the input is cleared, loading is over and no
    error is shown. *)
Theorem answered_send_adds_two_turns
  (w : World) (request : SendRequest) (modelResponse : jsstring)
  (Hsent : completion handleSendMessage w = Normal (Some request)) :
  let w2 := exec (handleSendMessage_fulfilled modelResponse)
              (exec handleSendMessage w) in
  messages w2
  = messages w ++ [{| role := user; text := userInput w |};
                   {| role := model; text := modelResponse |}]
  /\ userInput w2 = []
  /\ isLoading w2 = false
  /\ error w2 = None.
Proof.
  intros w2.
  destruct (handleSendMessage_request w request Hsent)
    as (c & rest & Htrim & Hloading).
  destruct (handleSendMessage_sent w c rest Htrim Hloading)
    as (_ & Hmessages & Hinput & _ & Herror & _).
  unfold w2, handleSendMessage_fulfilled. run_handler.
  cbn [messages userInput isLoading error set_messages set_isLoading snd].
  fold (exec handleSendMessage w).
  rewrite Hmessages, Hinput, Herror, <- app_assoc. repeat split.
Qed.

Lemma answered_send_adds_two_turns_witness :
  let w := set_userInput (units "Does it like sun?")
             (set_messages [{| role := model; text := units "A fern." |}]
                (exec App_mount (mount 1000 None))) in
  let request := {| chat := ChatHandle 0;
                    message := units "Does it like sun?" |} in
  completion handleSendMessage w = Normal (Some request)
  /\ messages (exec (handleSendMessage_fulfilled (units "Shade."))
                 (exec handleSendMessage w))
     = messages w ++ [{| role := user; text := userInput w |};
                      {| role := model; text := units "Shade." |}].
Proof.
  intros w request.
  assert (Hsent : completion handleSendMessage w = Normal (Some request))
    by reflexivity.
  split; [exact Hsent|].
  apply (answered_send_adds_two_turns w request (units "Shade.") Hsent).
Defined.

(** X16: while a send is pending, a further send does nothing, whatever
    has been typed in the meantime; and a send of blank input does
    nothing. *)
Theorem pending_send_blocks_further_sends
  (w : World) (request : SendRequest) (typed : jsstring)
  (Hsent : completion handleSendMessage w = Normal (Some request)) :
  let pending := set_userInput typed (exec handleSendMessage w) in
  handleSendMessage pending = (Normal None, pending)
  /\ (forall w0,
        trim (userInput w0) = [] -> handleSendMessage w0 = (Normal None, w0)).
Proof.
  intros pending.
  destruct (handleSendMessage_request w request Hsent)
    as (c & rest & Htrim & Hloading).
  destruct (handleSendMessage_sent w c rest Htrim Hloading)
    as (_ & _ & _ & Hpending & _).
  split.
  - apply handleSendMessage_blocked. right. exact Hpending.
  - intros w0 Hblank. apply handleSendMessage_blocked. left. exact Hblank.
Qed.

Lemma pending_send_blocks_further_sends_witness :
  let w := set_userInput (units "Does it like sun?")
             (exec App_mount (mount 1000 None)) in
  let request := {| chat := ChatHandle 0;
                    message := units "Does it like sun?" |} in
  let pending := set_userInput (units "And water?") (exec handleSendMessage w) in
  completion handleSendMessage w = Normal (Some request)
  /\ handleSendMessage pending = (Normal None, pending).
Proof.
  intros w request pending.
  assert (Hsent : completion handleSendMessage w = Normal (Some request))
    by reflexivity.
  split; [exact Hsent|].
  destruct (pending_send_blocks_further_sends w request (units "And water?")
              Hsent) as [H _].
  exact H.
Defined.

(** X17: the next send goes to the session of the previous one, whether
    that one was answered or failed, and creates no session. *)
Theorem next_send_uses_same_session
  (w : World) (request : SendRequest) (typed : jsstring) (c : N)
  (rest : jsstring)
  (Hsent : completion handleSendMessage w = Normal (Some request))
  (Htyped : trim typed = c :: rest) :
  (forall modelResponse,
      let w2 := set_userInput typed
                  (exec (handleSendMessage_fulfilled modelResponse)
                     (exec handleSendMessage w)) in
      completion handleSendMessage w2
      = Normal (Some {| chat := chat request; message := typed |})
      /\ sessions (exec handleSendMessage w2) = sessions w2)
  /\ (let w2 := set_userInput typed
                  (exec handleSendMessage_rejected (exec handleSendMessage w)) in
      completion handleSendMessage w2
      = Normal (Some {| chat := chat request; message := typed |})
      /\ sessions (exec handleSendMessage w2) = sessions w2).
Proof.
  destruct (handleSendMessage_request w request Hsent)
    as (c0 & rest0 & Htrim & Hloading).
  destruct (handleSendMessage_sent w c0 rest0 Htrim Hloading)
    as (Hrequest & _ & _ & _ & _ & _ & Hsession & _).
  rewrite Hsent in Hrequest. injection Hrequest as ->.
  cbn [chat].
  assert (Hnext : forall w2,
            userInput w2 = typed -> isLoading w2 = false ->
            chatSession w2 = Some (sessionFor w) ->
            completion handleSendMessage w2
            = Normal (Some {| chat := sessionFor w; message := typed |})
            /\ sessions (exec handleSendMessage w2) = sessions w2).
  { intros w2 Hinput Hload Hchat.
    assert (Htrim2 : trim (userInput w2) = c :: rest) by (rewrite Hinput; exact Htyped).
    destruct (handleSendMessage_sent w2 c rest Htrim2 Hload)
      as (Hreq & _ & _ & _ & _ & _ & _ & Hsessions).
    rewrite Hreq, Hsessions. unfold sessionFor at 1. rewrite Hchat, Hinput.
    split; reflexivity. }
  split.
  - intros modelResponse. cbv zeta.
    apply Hnext; try reflexivity. exact Hsession.
  - cbv zeta. apply Hnext; try reflexivity. exact Hsession.
Qed.

Lemma next_send_uses_same_session_witness :
  let w := set_userInput (units "Does it like sun?")
             (exec App_mount (mount 1000 None)) in
  let request := {| chat := ChatHandle 0;
                    message := units "Does it like sun?" |} in
  let w2 := set_userInput (units "And water?")
              (exec handleSendMessage_rejected (exec handleSendMessage w)) in
  (completion handleSendMessage w = Normal (Some request)
   /\ trim (units "And water?") = units "And water?")
  /\ completion handleSendMessage w2
     = Normal (Some {| chat := chat request; message := units "And water?" |})
  /\ sessions (exec handleSendMessage w2) = sessions w2.
Proof.
  intros w request w2.
  assert (Hsent : completion handleSendMessage w = Normal (Some request))
    by reflexivity.
  split; [split; [exact Hsent | reflexivity]|].
  destruct (next_send_uses_same_session w request (units "And water?")
              65%N (units "nd water?") Hsent eq_refl) as [_ H].
  exact H.
Defined.

(** X18: when the submit button is enabled, the send goes out with the
    text typed, and the first turn of the conversation is still the first
    turn once the model has answered or the call has failed. *)
Theorem enabled_submit_sends_typed_text
  (w : World) (Henabled : submitDisabled w = false) :
  exists first others handle,
    messages w = first :: others
    /\ completion handleSendMessage w
       = Normal (Some {| chat := handle; message := userInput w |})
    /\ (forall modelResponse,
          exists later,
            messages (exec (handleSendMessage_fulfilled modelResponse)
                        (exec handleSendMessage w))
            = first :: later)
    /\ messages (exec handleSendMessage_rejected (exec handleSendMessage w))
       = first :: others.
Proof.
  unfold submitDisabled in Henabled.
  apply orb_false_iff in Henabled as [Henabled Hturns].
  apply orb_false_iff in Henabled as [Hblank Hloading].
  destruct (trim (userInput w)) as [|c rest] eqn:Htrim; [discriminate|].
  destruct (messages w) as [|first others] eqn:Hmessages; [discriminate|].
  destruct (handleSendMessage_sent w c rest Htrim Hloading)
    as (Hrequest & Hsent & _).
  exists first, others, (sessionFor w).
  split; [reflexivity|]. split; [exact Hrequest|].
  split.
  - intros modelResponse.
    unfold handleSendMessage_fulfilled. run_handler.
    cbn [messages set_messages set_isLoading snd].
    fold (exec handleSendMessage w). rewrite Hsent, Hmessages.
    eexists. reflexivity.
  - unfold handleSendMessage_rejected. run_handler.
    cbn [messages set_messages set_isLoading set_error set_console snd].
    fold (exec handleSendMessage w). rewrite Hsent, Hmessages.
    rewrite removelast_last. reflexivity.
Qed.

Lemma enabled_submit_sends_typed_text_witness :
  let w := set_userInput (units "Does it like sun?")
             (set_messages [{| role := model; text := units "A fern." |}]
                (exec App_mount (mount 1000 None))) in
  submitDisabled w = false
  /\ exists first others handle,
       messages w = first :: others
       /\ completion handleSendMessage w
          = Normal (Some {| chat := handle; message := userInput w |})
       /\ (forall modelResponse,
             exists later,
               messages (exec (handleSendMessage_fulfilled modelResponse)
                           (exec handleSendMessage w))
               = first :: later)
       /\ messages (exec handleSendMessage_rejected (exec handleSendMessage w))
          = first :: others.
Proof.
  intros w. split; [reflexivity|].
  apply (enabled_submit_sends_typed_text w). reflexivity.
Defined.

(** ** Identification *)

(** X19: when the awaited call of an identification rejects (the image
    cannot be read, or [analyzePlantImage] fails) the handler leaves no
    turn and no plant name, the earlier conversation included, and shows
    the analysis error; the image stays selected, the session and the
    reminders stay as they were.  Without an image only the request for
    one is shown. *)
Theorem rejected_analysis_clears_conversation
  (w : World) (file : File) (Himage : image w = Some file) :
  let w' := exec handleAnalyzeClick_rejected (exec handleAnalyzeClick w) in
  completion handleAnalyzeClick w = Normal (Some file)
  /\ messages w' = []
  /\ currentPlant w' = None
  /\ error w' = Some AnalysisFailed
  /\ isLoading w' = false
  /\ image w' = Some file
  /\ chatSession w' = chatSession w
  /\ reminders w' = reminders w
  /\ (forall w0,
        image w0 = None ->
        handleAnalyzeClick w0
        = (Normal None, set_error (Some SelectImageFirst) w0)).
Proof.
  intros w'. unfold w', handleAnalyzeClick, handleAnalyzeClick_rejected.
  run_handler. rewrite Himage. cbn.
  repeat split; try assumption.
  intros w0 Hnone. rewrite Hnone. reflexivity.
Qed.

Lemma rejected_analysis_clears_conversation_witness :
  let w := set_messages [{| role := model; text := units "A fern." |}]
             (exec (handleImageChange (Some (SelectedFile 0)))
                (exec App_mount (mount 1000 None))) in
  let w' := exec handleAnalyzeClick_rejected (exec handleAnalyzeClick w) in
  image w = Some (SelectedFile 0)
  /\ messages w' = []
  /\ error w' = Some AnalysisFailed
  /\ image w' = Some (SelectedFile 0).
Proof.
  intros w w'. split; [reflexivity|].
  destruct (rejected_analysis_clears_conversation w (SelectedFile 0) eq_refl)
    as (_ & H2 & _ & H4 & _ & H6 & _).
  split; [exact H2|]. split; [exact H4 | exact H6].
Defined.

(** *** The matchers find what is there *)

Section MatcherCompleteness.

Context {R : Type}.

Lemma literal_app (l : jsstring) (k : jsstring -> option R) (s : jsstring) :
  literal l k (l ++ s) = k s.
Proof.
  induction l as [|c l IH]; cbn; [reflexivity|].
  rewrite N.eqb_refl. exact IH.
Qed.

Lemma greedyStar_complete (p : N -> bool) (k : jsstring -> option R)
  (run s : jsstring) :
  forallb p run = true -> k s <> None -> greedyStar p k (run ++ s) <> None.
Proof.
  induction run as [|c run IH]; cbn [forallb app]; intros Hrun Hk.
  - destruct s as [|d s]; cbn; [exact Hk|].
    destruct (p d); [|exact Hk].
    destruct (greedyStar p k s); [discriminate | exact Hk].
  - apply andb_true_iff in Hrun as [Hc Hrun]. cbn. rewrite Hc.
    specialize (IH Hrun Hk).
    destruct (greedyStar p k (run ++ s)); [discriminate | contradiction].
Qed.

Lemma lazyStar_complete (p : N -> bool)
  (k : jsstring -> jsstring -> option R) (run seen s : jsstring) :
  forallb p run = true -> k (seen ++ run) s <> None ->
  lazyStar p k seen (run ++ s) <> None.
Proof.
  revert seen. induction run as [|c run IH]; cbn [forallb app];
    intros seen Hrun Hk.
  - rewrite app_nil_r in Hk.
    destruct s as [|d s]; cbn; destruct (k seen _); try discriminate;
      contradiction.
  - apply andb_true_iff in Hrun as [Hc Hrun]. cbn.
    destruct (k seen (c :: run ++ s)); [discriminate|].
    rewrite Hc. apply IH; [exact Hrun|].
    rewrite <- app_assoc. exact Hk.
Qed.

(** The greedy star stops where a longer run does not lead to a match. *)
Lemma greedyStar_longest (p : N -> bool) (k : jsstring -> option R)
  (s : jsstring) (r : R) :
  greedyStar p k s = Some r ->
  exists run s',
    s = run ++ s' /\ forallb p run = true /\ k s' = Some r
    /\ (forall c s'', s' = c :: s'' -> p c = true ->
                      greedyStar p k s'' = None).
Proof.
  induction s as [|c s IH]; cbn; intros H.
  - exists [], []. repeat split; [exact H | discriminate].
  - destruct (p c) eqn:Hc.
    + destruct (greedyStar p k s) as [r'|] eqn:Hstar.
      * injection H as ->.
        destruct (IH eq_refl) as (run & s' & -> & Hrun & Hk & Hlong).
        exists (c :: run), s'. cbn. rewrite Hc, Hrun. repeat split; assumption.
      * exists [], (c :: s). repeat split; [exact H|].
        intros c' s'' Heq _. injection Heq as <- <-. exact Hstar.
    + exists [], (c :: s). repeat split; [exact H|].
      intros c' s'' Heq Hc'. injection Heq as <- <-. congruence.
Qed.

(** The lazy star stops at the first place where the rest matches. *)
Lemma lazyStar_shortest (p : N -> bool)
  (k : jsstring -> jsstring -> option R) (seen s : jsstring) (r : R) :
  lazyStar p k seen s = Some r ->
  exists run s',
    s = run ++ s' /\ forallb p run = true /\ k (seen ++ run) s' = Some r
    /\ (forall run1 c run2,
          run = run1 ++ c :: run2 ->
          k (seen ++ run1) (c :: run2 ++ s') = None).
Proof.
  revert seen. induction s as [|c s IH]; intros seen H; cbn in H.
  - destruct (k seen []) as [r'|] eqn:Hk; [|discriminate].
    injection H as ->. exists [], []. rewrite (app_nil_r seen).
    repeat split; [exact Hk|].
    intros [|? ?] ? ? Heq; discriminate Heq.
  - destruct (k seen (c :: s)) as [r'|] eqn:Hk.
    + injection H as ->. exists [], (c :: s). rewrite (app_nil_r seen).
      repeat split; [exact Hk|].
      intros [|? ?] ? ? Heq; discriminate Heq.
    + destruct (p c) eqn:Hc; [|discriminate].
      destruct (IH _ H) as (run & s' & -> & Hrun & Hk' & Hshort).
      exists (c :: run), s'. cbn [forallb app]. rewrite Hc, Hrun.
      rewrite <- app_assoc in Hk'.
      repeat split; [exact Hk'|].
      intros [|d run1] c' run2 Heq.
      * injection Heq as <- <-. rewrite (app_nil_r seen). exact Hk.
      * injection Heq as <- ->.
        specialize (Hshort run1 c' run2 eq_refl).
        rewrite <- app_assoc in Hshort. exact Hshort.
Qed.

Lemma firstMatch_complete (pattern_at : jsstring -> option R)
  (pre s : jsstring) :
  pattern_at s <> None -> firstMatch pattern_at (pre ++ s) <> None.
Proof.
  intros Hat. induction pre as [|c pre IH]; cbn [app].
  - destruct s; cbn; destruct (pattern_at _); try discriminate; contradiction.
  - cbn. destruct (pattern_at (c :: pre ++ s)); [discriminate | exact IH].
Qed.

Lemma firstMatch_sound (pattern_at : jsstring -> option R)
  (s : jsstring) (r : R) :
  firstMatch pattern_at s = Some r ->
  exists pre s', s = pre ++ s' /\ pattern_at s' = Some r.
Proof.
  induction s as [|c s IH]; cbn.
  - destruct (pattern_at []) eqn:Hat; [|discriminate].
    intros H. injection H as ->. exists [], []. split; [reflexivity | exact Hat].
  - destruct (pattern_at (c :: s)) eqn:Hat.
    + intros H. injection H as ->. exists [], (c :: s).
      split; [reflexivity | exact Hat].
    + intros H. destruct (IH H) as (pre & s' & -> & Hs').
      exists (c :: pre), s'. split; [reflexivity | exact Hs'].
Qed.

End MatcherCompleteness.

Lemma nameMatch_firstMatch (s : jsstring) :
  nameMatch s = firstMatch nameRegExp_at s.
Proof.
  induction s as [|c s IH]; cbn.
  - reflexivity.
  - rewrite IH. reflexivity.
Qed.

(** The tail of the name pattern, white space and a separator, matches
    exactly the texts of that form, whatever it is to return. *)
Lemma separator_matcher_accepts (capture : jsstring) (w2 : jsstring) (sep : N)
  (post : jsstring) :
  forallb isWhiteSpace w2 = true -> isSeparator sep = true ->
  greedyStar isWhiteSpace (oneOf isSeparator (fun _ => Some capture))
    (w2 ++ sep :: post) <> None.
Proof.
  intros Hw2 Hsep. apply greedyStar_complete; [exact Hw2|].
  cbn. rewrite Hsep. discriminate.
Qed.

Lemma nameRegExp_at_complete (w1 name w2 : jsstring) (sep : N)
  (post : jsstring) :
  forallb isWhiteSpace w1 = true ->
  forallb (fun c => negb (isLineTerminator c)) name = true ->
  forallb isWhiteSpace w2 = true ->
  isSeparator sep = true ->
  nameRegExp_at (nameHeader ++ w1 ++ name ++ w2 ++ sep :: post) <> None.
Proof.
  intros Hw1 Hname Hw2 Hsep. unfold nameRegExp_at. rewrite literal_app.
  apply greedyStar_complete; [exact Hw1|].
  apply lazyStar_complete; [exact Hname|].
  apply separator_matcher_accepts; assumption.
Qed.

(** X20: the pattern matches a reply exactly when the reply holds the
    name field: the header, white space, a run free of line terminators,
    white space, and a slash or a line feed. *)
Theorem nameMatch_iff_hasNameField (reply : jsstring) :
  nameMatch reply <> None <-> hasNameField reply.
Proof.
  split.
  - destruct (nameMatch reply) as [capture|] eqn:Hmatch; [|contradiction].
    intros _. apply (nameMatch_sound _ _ Hmatch).
  - intros (pre & w1 & name & w2 & sep & post & -> & Hw1 & Hname & Hw2 & Hsep).
    rewrite nameMatch_firstMatch. apply firstMatch_complete.
    apply nameRegExp_at_complete; assumption.
Qed.

Lemma forallb_by_position {A} (f : A -> bool) (l : list A) :
  (forall l1 x l2, l = l1 ++ x :: l2 -> f x = true) -> forallb f l = true.
Proof.
  intros H. apply forallb_forall. intros x Hx.
  apply in_split in Hx as (l1 & l2 & ->). apply (H l1 x l2 eq_refl).
Qed.

(** What the name pattern captures. *)
Lemma nameRegExp_at_capture (s capture : jsstring) :
  nameRegExp_at s = Some capture ->
  (forall c rest, capture = c :: rest -> isWhiteSpace c = false)
  /\ (forall init c, capture = init ++ [c] -> isWhiteSpace c = false)
  /\ forallb (fun c => negb (isSeparator c)) capture = true
  /\ forallb (fun c => negb (isLineTerminator c)) capture = true.
Proof.
  unfold nameRegExp_at. intros H.
  apply literal_sound in H as (s1 & -> & H).
  apply greedyStar_longest in H as (w1 & s2 & -> & Hw1 & H & Hlong).
  apply lazyStar_shortest in H as (run & s3 & -> & Hrun & H & Hshort).
  cbn [app] in H, Hshort.
  pose proof H as Htail.
  apply greedyStar_sound in Htail as (w2 & s4 & -> & Hw2 & Htail).
  apply oneOf_sound in Htail as (sep & post & -> & Hsep & Hcap).
  injection Hcap as <-.
  split; [|split; [|split]].
  - intros c rest -> . destruct (isWhiteSpace c) eqn:Hc; [|reflexivity].
    exfalso. cbn [forallb] in Hrun. apply andb_true_iff in Hrun as [_ Hrest].
    apply (greedyStar_complete isWhiteSpace
             (lazyStar (fun c => negb (isLineTerminator c))
                (fun capture =>
                   greedyStar isWhiteSpace
                     (oneOf isSeparator (fun _ => Some capture))) [])
             [] (rest ++ w2 ++ sep :: post) eq_refl).
    + apply lazyStar_complete; [exact Hrest|].
      apply separator_matcher_accepts; assumption.
    + apply (Hlong c (rest ++ w2 ++ sep :: post) eq_refl Hc).
  - intros init c ->. destruct (isWhiteSpace c) eqn:Hc; [|reflexivity].
    exfalso.
    apply (separator_matcher_accepts init (c :: w2) sep post).
    + cbn. rewrite Hc. exact Hw2.
    + exact Hsep.
    + apply (Hshort init c [] eq_refl).
  - apply forallb_by_position. intros l1 c l2 ->.
    destruct (isSeparator c) eqn:Hc; [|reflexivity].
    exfalso.
    apply (separator_matcher_accepts l1 [] c (l2 ++ w2 ++ sep :: post) eq_refl Hc).
    apply (Hshort l1 c l2 eq_refl).
  - exact Hrun.
Qed.

(** [trim] changes nothing in a text that neither starts nor ends with
    white space. *)
Lemma trim_unchanged (s : jsstring) :
  (forall c rest, s = c :: rest -> isWhiteSpace c = false) ->
  (forall init c, s = init ++ [c] -> isWhiteSpace c = false) ->
  trim s = s.
Proof.
  intros Hfirst Hlast. destruct s as [|c rest]; [reflexivity|].
  unfold trim. cbn [trimStart]. rewrite (Hfirst c rest eq_refl).
  unfold trimEnd.
  destruct (exists_last (l := c :: rest) ltac:(discriminate)) as (init & d & Heq).
  rewrite Heq, rev_app_distr. cbn [rev app trimStart].
  rewrite (Hlast init d Heq). cbn [rev]. rewrite rev_involutive. reflexivity.
Qed.

(** X21: a plant name set by an identification is the text the pattern
    captured, unchanged by the trimming: it is not empty, neither starts
    nor ends with white space, and holds no slash and no line
    terminator. *)
Theorem extracted_plant_name_is_clean
  (w : World) (file : File) (reply name : jsstring)
  (Himage : image w = Some file)
  (Hname : currentPlant (exec (identify reply) w) = Some name) :
  nameMatch reply = Some name
  /\ name <> []
  /\ trim name = name
  /\ forallb (fun c => negb (isSeparator c) && negb (isLineTerminator c)) name
     = true.
Proof.
  destruct (identify_exec w file reply Himage) as (Hplant & _).
  rewrite Hplant in Hname.
  destruct (nameMatch reply) as [[|c capture]|] eqn:Hmatch; try discriminate.
  pose proof Hmatch as Hat. rewrite nameMatch_firstMatch in Hat.
  apply firstMatch_sound in Hat as (pre & s & _ & Hat).
  apply nameRegExp_at_capture in Hat as (Hfirst & Hlast & Hsep & Hline).
  rewrite (trim_unchanged _ Hfirst Hlast) in Hname. injection Hname as <-.
  split; [reflexivity|]. split; [discriminate|].
  split; [apply trim_unchanged; assumption|].
  apply forallb_forall. intros x Hx.
  rewrite forallb_forall in Hsep, Hline.
  rewrite (Hsep x Hx), (Hline x Hx). reflexivity.
Qed.

Lemma extracted_plant_name_is_clean_witness :
  let w := exec (handleImageChange (Some (SelectedFile 0)))
             (exec App_mount (mount 1000 None)) in
  let reply := nameHeader ++ units "  Rosa canina  " ++ [10%N] in
  let name := units "Rosa canina" in
  (image w = Some (SelectedFile 0)
   /\ currentPlant (exec (identify reply) w) = Some name)
  /\ nameMatch reply = Some name
  /\ name <> []
  /\ trim name = name.
Proof.
  intros w reply name.
  assert (Hname : currentPlant (exec (identify reply) w) = Some name)
    by reflexivity.
  split; [split; [reflexivity | exact Hname]|].
  destruct (extracted_plant_name_is_clean w (SelectedFile 0) reply name
              eq_refl Hname) as (H1 & H2 & H3 & _).
  split; [exact H1|]. split; [exact H2 | exact H3].
Defined.

(** ** The description shared *)

Lemma firstMatch_skip {R} (pattern_at : jsstring -> option R)
  (pre s : jsstring) :
  (forall c rest, In c pre -> pattern_at (c :: rest) = None) ->
  firstMatch pattern_at (pre ++ s) = firstMatch pattern_at s.
Proof.
  induction pre as [|c pre IH]; intros Hnone; [reflexivity|].
  cbn [app firstMatch]. rewrite (Hnone c _ (or_introl eq_refl)).
  apply IH. intros d rest Hd. apply Hnone. right. exact Hd.
Qed.

Lemma firstMatch_here {R} (pattern_at : jsstring -> option R)
  (s : jsstring) (r : R) :
  pattern_at s = Some r -> firstMatch pattern_at s = Some r.
Proof. intros H. destruct s; cbn; rewrite H; reflexivity. Qed.

(** Where the continuation fails all along the run and succeeds after it,
    the lazy star takes the run. *)
Lemma lazyStar_exact {R} (p : N -> bool)
  (k : jsstring -> jsstring -> option R) (run seen s : jsstring) (r : R) :
  forallb p run = true ->
  (forall run1 c run2,
      run = run1 ++ c :: run2 -> k (seen ++ run1) (c :: run2 ++ s) = None) ->
  k (seen ++ run) s = Some r ->
  lazyStar p k seen (run ++ s) = Some r.
Proof.
  revert seen. induction run as [|c run IH]; cbn [forallb app];
    intros seen Hrun Hfail Hk.
  - rewrite app_nil_r in Hk. destruct s; cbn; rewrite Hk; reflexivity.
  - apply andb_true_iff in Hrun as [Hc Hrun]. cbn.
    pose proof (Hfail [] c run eq_refl) as Hhere.
    rewrite app_nil_r in Hhere. rewrite Hhere, Hc.
    apply IH; [exact Hrun | | rewrite <- app_assoc; exact Hk].
    intros run1 d run2 ->. rewrite <- app_assoc.
    apply (Hfail (c :: run1) d run2 eq_refl).
Qed.

Lemma introRegExp_at_sound (s capture : jsstring) :
  introRegExp_at s = Some capture ->
  (exists post, s = introHeader ++ capture ++ sectionEnd ++ post)
  /\ (forall b1 b2, capture <> b1 ++ sectionEnd ++ b2).
Proof.
  unfold introRegExp_at. intros H.
  apply literal_sound in H as (s1 & -> & H).
  apply lazyStar_shortest in H as (run & s2 & -> & _ & H & Hshort).
  cbn [app] in H, Hshort.
  pose proof H as Hend.
  apply literal_sound in Hend as (post & -> & Hcap). injection Hcap as <-.
  split; [exists post; reflexivity|].
  intros b1 b2 ->.
  specialize (Hshort b1 10%N ([42; 42]%N ++ b2) eq_refl).
  cbn in Hshort. discriminate.
Qed.

Lemma introRegExp_at_complete (body post : jsstring) :
  introRegExp_at (introHeader ++ body ++ sectionEnd ++ post) <> None.
Proof.
  unfold introRegExp_at. rewrite literal_app.
  apply lazyStar_complete.
  - apply forallb_forall. reflexivity.
  - cbn. discriminate.
Qed.

(** X22: the description is the trimmed body of an introduction of the
    reply, a body that does not run past an end of section; a reply
    without an introduction gets the fixed text saying that nothing was
    found. *)
Theorem description_is_trimmed_introduction (reply : jsstring) :
  (hasIntroduction reply ->
   exists pre body post,
     reply = pre ++ introHeader ++ body ++ sectionEnd ++ post
     /\ (forall b1 b2, body <> b1 ++ sectionEnd ++ b2)
     /\ getPlantDescription reply = trim body)
  /\ (~ hasIntroduction reply -> getPlantDescription reply = noInformation).
Proof.
  unfold getPlantDescription.
  destruct (firstMatch introRegExp_at reply) as [capture|] eqn:Hmatch.
  - pose proof Hmatch as Hfound.
    apply firstMatch_sound in Hfound as (pre & s & -> & Hat).
    apply introRegExp_at_sound in Hat as ((post & ->) & Hshort).
    split.
    + intros _. exists pre, capture, post. repeat split. exact Hshort.
    + intros Hnone. exfalso. apply Hnone. exists pre, capture, post. reflexivity.
  - split; [|reflexivity].
    intros (pre & body & post & ->). exfalso.
    apply (firstMatch_complete introRegExp_at pre
             (introHeader ++ body ++ sectionEnd ++ post)
             (introRegExp_at_complete body post)).
    exact Hmatch.
Qed.

Lemma description_is_trimmed_introduction_witness :
  let reply := introHeader ++ units " A fern. " ++ sectionEnd ++ units "Care:**" in
  (hasIntroduction reply /\ ~ hasIntroduction (units "No plant here."))
  /\ getPlantDescription reply = units "A fern."
  /\ getPlantDescription (units "No plant here.") = noInformation.
Proof.
  intros reply.
  assert (Hhas : hasIntroduction reply).
  { exists [], (units " A fern. "), (units "Care:**"). reflexivity. }
  assert (Hnone : ~ hasIntroduction (units "No plant here.")).
  { intros (pre & body & post & Heq).
    assert (Hin : In 42%N (units "No plant here.")).
    { rewrite Heq. apply in_or_app. right. left. reflexivity. }
    cbv in Hin. repeat destruct Hin as [Hin | Hin]; try discriminate Hin.
    exact Hin. }
  split; [split; assumption|].
  destruct (description_is_trimmed_introduction (units "No plant here."))
    as [_ H].
  split; [reflexivity | apply H, Hnone].
Defined.

(** X23: in a reply whose introduction is free of asterisks, as is the
    text before it, the description is the introduction, trimmed: the text
    between the header line and the next line that starts with two
    asterisks. *)
Theorem description_of_template_reply
  (pre body post : jsstring)
  (Hpre : noAsterisk pre = true) (Hbody : noAsterisk body = true) :
  getPlantDescription (pre ++ introHeader ++ body ++ sectionEnd ++ post)
  = trim body.
Proof.
  unfold getPlantDescription.
  rewrite firstMatch_skip.
  2:{ intros c rest Hc. unfold noAsterisk in Hpre.
      rewrite forallb_forall in Hpre. specialize (Hpre c Hc).
      apply negb_true_iff in Hpre.
      unfold introRegExp_at, introHeader. cbn [literal].
      rewrite N.eqb_sym, Hpre. reflexivity. }
  rewrite (firstMatch_here introRegExp_at _ body); [reflexivity|].
  unfold introRegExp_at. rewrite literal_app.
  apply lazyStar_exact.
  - apply forallb_forall. reflexivity.
  - intros run1 c run2 ->. cbn [app literal sectionEnd].
    destruct (10 =? c)%N; [|reflexivity].
    unfold noAsterisk in Hbody. rewrite forallb_app in Hbody.
    apply andb_true_iff in Hbody as [_ Hbody]. cbn [forallb] in Hbody.
    apply andb_true_iff in Hbody as [_ Hrun2].
    destruct run2 as [|d run2]; cbn [app]; [reflexivity|].
    cbn [forallb] in Hrun2. apply andb_true_iff in Hrun2 as [Hd _].
    apply negb_true_iff in Hd. rewrite N.eqb_sym, Hd. reflexivity.
  - cbn [app]. unfold sectionEnd. rewrite literal_app. reflexivity.
Qed.

Lemma description_of_template_reply_witness :
  (noAsterisk (units "Here: ") = true /\ noAsterisk (units " A fern. ") = true)
  /\ getPlantDescription
       (units "Here: " ++ introHeader ++ units " A fern. " ++ sectionEnd
        ++ units "Care:**")
     = trim (units " A fern. ").
Proof.
  split; [split; reflexivity|].
  apply (description_of_template_reply (units "Here: ") (units " A fern. ")
           (units "Care:**")); reflexivity.
Defined.

(** A plant name set by an identification is not empty. *)
Lemma identified_plant_name_nonempty
  (w : World) (file : File) (reply plant : jsstring) :
  image w = Some file ->
  currentPlant (exec (identify reply) w) = Some plant ->
  exists c rest, plant = c :: rest.
Proof.
  intros Himage Hplant.
  destruct (identify_exec w file reply Himage) as (Heq & _).
  rewrite Heq in Hplant.
  destruct (nameMatch reply) as [[|c capture]|] eqn:Hmatch; try discriminate.
  pose proof Hmatch as Hat. rewrite nameMatch_firstMatch in Hat.
  apply firstMatch_sound in Hat as (pre & s & _ & Hat).
  apply nameRegExp_at_capture in Hat as (Hfirst & Hlast & _).
  rewrite (trim_unchanged _ Hfirst Hlast) in Hplant. injection Hplant as <-.
  exists c, capture. reflexivity.
Qed.

(** A send never touches the plant name. *)
Lemma handleSendMessage_currentPlant (w : World) :
  currentPlant (exec handleSendMessage w) = currentPlant w.
Proof.
  unfold handleSendMessage. run_handler.
  destruct (trim (userInput w)); [reflexivity|].
  destruct (isLoading w); [reflexivity|].
  destruct (isListening w); cbn; destruct (chatSession w); reflexivity.
Qed.

(** X24: what is shared after an identification that found a name is the
    title with the name and the text with the name and the description of
    the identification reply; this is still so after a further question
    has been answered.  The share changes nothing, and without the
    platform capability nothing is shared. *)
Theorem share_describes_identification_reply
  (w : World) (file : File) (reply plant : jsstring)
  (Himage : image w = Some file)
  (Hplant : currentPlant (exec (identify reply) w) = Some plant) :
  let w1 := exec (identify reply) w in
  let data :=
    {| Share.title := shareTitlePrefix ++ plant;
       Share.text := shareTextBeforeName ++ plant ++ shareTextAfterName
                     ++ getPlantDescription reply |} in
  handleShare true w1 = (Normal (Some data), w1)
  /\ handleShare false w1 = (Normal None, w1)
  /\ (forall typed c rest modelResponse,
        trim typed = c :: rest ->
        let w2 := exec (handleSendMessage_fulfilled modelResponse)
                    (exec handleSendMessage (set_userInput typed w1)) in
        handleShare true w2 = (Normal (Some data), w2)).
Proof.
  intros w1 data.
  destruct (identified_plant_name_nonempty w file reply plant Himage Hplant)
    as (c0 & rest0 & ->).
  destruct (identify_exec w file reply Himage) as (_ & Hturns & _ & Hloading).
  fold w1 in Hturns, Hloading, Hplant.
  assert (Hshare : forall w0 later,
            currentPlant w0 = Some (c0 :: rest0) ->
            messages w0 = {| role := model; text := reply |} :: later ->
            handleShare true w0 = (Normal (Some data), w0)).
  { intros w0 later Hp Hm. unfold handleShare, bind, gets.
    rewrite Hp, Hm. reflexivity. }
  split; [apply (Hshare w1 []); assumption|].
  split.
  { unfold handleShare, bind, gets. rewrite Hplant, Hturns. reflexivity. }
  intros typed c rest modelResponse Htyped w2.
  assert (Hloading1 : isLoading (set_userInput typed w1) = false) by exact Hloading.
  destruct (handleSendMessage_sent (set_userInput typed w1) c rest Htyped Hloading1)
    as (_ & Hsent & _).
  apply (Hshare w2
           [{| role := user; text := typed |};
            {| role := model; text := modelResponse |}]).
  - unfold w2, handleSendMessage_fulfilled. run_handler.
    cbn [currentPlant set_messages set_isLoading snd].
    fold (exec handleSendMessage (set_userInput typed w1)).
    rewrite handleSendMessage_currentPlant. exact Hplant.
  - unfold w2, handleSendMessage_fulfilled. run_handler.
    cbn [messages set_messages set_isLoading snd].
    fold (exec handleSendMessage (set_userInput typed w1)).
    rewrite Hsent. cbn [messages set_userInput userInput].
    rewrite Hturns. reflexivity.
Qed.

Lemma share_describes_identification_reply_witness :
  let w := exec (handleImageChange (Some (SelectedFile 0)))
             (exec App_mount (mount 1000 None)) in
  let reply := monsteraLine ++ [10%N] ++ introHeader ++ units "A climber."
               ++ sectionEnd in
  let w1 := exec (identify reply) w in
  (image w = Some (SelectedFile 0)
   /\ currentPlant w1 = Some (units "Monstera"))
  /\ handleShare true w1
     = (Normal
          (Some {| Share.title := shareTitlePrefix ++ units "Monstera";
                   Share.text := shareTextBeforeName ++ units "Monstera"
                                 ++ shareTextAfterName ++ units "A climber." |}),
        w1).
Proof.
  intros w reply w1.
  assert (Hplant : currentPlant w1 = Some (units "Monstera")) by reflexivity.
  split; [split; [reflexivity | exact Hplant]|].
  destruct (share_describes_identification_reply w (SelectedFile 0) reply
              (units "Monstera") eq_refl Hplant) as (H & _).
  exact H.
Defined.

(** ** The image and the dictation *)

Lemma split_without_separator (sep : N) (s : jsstring) :
  forallb (fun c => negb (c =? sep)%N) s = true -> split sep s = [s].
Proof.
  induction s as [|c s IH]; cbn [forallb split]; intros H; [reflexivity|].
  apply andb_true_iff in H as [Hc Hs]. apply negb_true_iff in Hc.
  rewrite Hc, (IH Hs). reflexivity.
Qed.

Lemma split_at_separator (sep : N) (a b : jsstring) :
  forallb (fun c => negb (c =? sep)%N) a = true ->
  split sep (a ++ sep :: b) = a :: split sep b.
Proof.
  induction a as [|c a IH]; cbn [forallb app split]; intros H.
  - rewrite N.eqb_refl. reflexivity.
  - apply andb_true_iff in H as [Hc Ha]. apply negb_true_iff in Hc.
    rewrite Hc, (IH Ha). reflexivity.
Qed.

(** X25: of a data URL, a header without comma, a comma and a payload,
    the image is encoded as the payload up to its first comma, the whole
    payload when it has none, as base 64 has none; of a text without a
    comma nothing is left. *)
Theorem fileToBase64_is_payload
  (header payload : jsstring)
  (Hheader : noComma header = true) (Hpayload : noComma payload = true) :
  fileToBase64 (header ++ 44%N :: payload) = Some payload
  /\ (forall more,
        fileToBase64 (header ++ 44%N :: payload ++ 44%N :: more) = Some payload)
  /\ fileToBase64 header = None.
Proof.
  unfold fileToBase64, noComma in *.
  split; [|split].
  - rewrite split_at_separator, split_without_separator by assumption.
    reflexivity.
  - intros more. rewrite !split_at_separator by assumption. reflexivity.
  - rewrite split_without_separator by assumption. reflexivity.
Qed.

Lemma fileToBase64_is_payload_witness :
  (noComma (units "data:image/png;base64") = true
   /\ noComma (units "QUJD") = true)
  /\ fileToBase64 (units "data:image/png;base64" ++ 44%N :: units "QUJD")
     = Some (units "QUJD").
Proof.
  split; [split; reflexivity|].
  destruct (fileToBase64_is_payload (units "data:image/png;base64")
              (units "QUJD") eq_refl eq_refl) as (H & _).
  exact H.
Defined.

Lemma transcripts_from (results : list SpeechResult) (f i : jsstring) :
  fold_left
    (fun acc r =>
       let '(finalTranscript, interimTranscript) := acc in
       if isFinal r then (finalTranscript ++ transcript r, interimTranscript)
       else (finalTranscript, interimTranscript ++ transcript r))
    results (f, i)
  = (f ++ concat (map transcript (filter isFinal results)),
     i ++ concat (map transcript
                    (filter (fun r => negb (isFinal r)) results))).
Proof.
  revert f i. induction results as [|r results IH]; intros f i; cbn.
  - rewrite !app_nil_r. reflexivity.
  - destruct (isFinal r); cbn; rewrite IH, <- app_assoc; reflexivity.
Qed.

(** X26: a recognition event puts into the input the final transcripts,
    from the result index on, followed by the interim ones; when the final
    results come before the interim ones this is the transcripts in their
    order; an index past the results empties the input.  Nothing else
    changes. *)
Theorem onresult_sets_input
  (w : World) (resultIndex : nat) (results : list SpeechResult) :
  let news := skipn resultIndex results in
  exec (onresult resultIndex results) w
  = set_userInput
      (concat (map transcript (filter isFinal news))
       ++ concat (map transcript (filter (fun r => negb (isFinal r)) news)))
      w
  /\ (forall finals interims,
        news = finals ++ interims ->
        forallb isFinal finals = true ->
        forallb (fun r => negb (isFinal r)) interims = true ->
        userInput (exec (onresult resultIndex results) w)
        = concat (map transcript news))
  /\ (length results <= resultIndex ->
      userInput (exec (onresult resultIndex results) w) = [])%nat.
Proof.
  intros news.
  assert (Hexec : exec (onresult resultIndex results) w
                  = set_userInput
                      (concat (map transcript (filter isFinal news))
                       ++ concat (map transcript
                                    (filter (fun r => negb (isFinal r)) news)))
                      w).
  { unfold onresult, transcripts. fold news.
    rewrite transcripts_from. reflexivity. }
  split; [exact Hexec|]. rewrite Hexec. cbn [userInput set_userInput].
  split.
  - intros finals interims -> Hfinals Hinterims.
    assert (Hff : filter isFinal finals = finals).
    { clear -Hfinals. induction finals as [|r l IH]; [reflexivity|].
      cbn in *. apply andb_true_iff in Hfinals as [Hr Hl].
      rewrite Hr, (IH Hl). reflexivity. }
    assert (Hfi : filter isFinal interims = []).
    { clear -Hinterims. induction interims as [|r l IH]; [reflexivity|].
      cbn in *. apply andb_true_iff in Hinterims as [Hr Hl].
      apply negb_true_iff in Hr. rewrite Hr. exact (IH Hl). }
    assert (Hnf : filter (fun r => negb (isFinal r)) finals = []).
    { clear -Hfinals. induction finals as [|r l IH]; [reflexivity|].
      cbn in *. apply andb_true_iff in Hfinals as [Hr Hl].
      rewrite Hr. exact (IH Hl). }
    assert (Hni : filter (fun r => negb (isFinal r)) interims = interims).
    { clear -Hinterims. induction interims as [|r l IH]; [reflexivity|].
      cbn in *. apply andb_true_iff in Hinterims as [Hr Hl].
      rewrite Hr, (IH Hl). reflexivity. }
    rewrite !filter_app, Hff, Hfi, Hnf, Hni, app_nil_r. cbn [app].
    rewrite map_app, concat_app. reflexivity.
  - intros Hpast. unfold news. rewrite skipn_all2 by exact Hpast. reflexivity.
Qed.

Lemma onresult_sets_input_witness :
  let results := [{| isFinal := true; transcript := units "water " |};
                  {| isFinal := false; transcript := units "the fe" |}] in
  let w := mount 1000 None in
  (skipn 0 results = [{| isFinal := true; transcript := units "water " |}]
                     ++ [{| isFinal := false; transcript := units "the fe" |}]
   /\ (length results <= 5)%nat)
  /\ userInput (exec (onresult 0 results) w) = units "water the fe"
  /\ userInput (exec (onresult 5 results) w) = [].
Proof.
  intros results w. split; [split; [reflexivity | cbn; lia]|].
  split.
  - destruct (onresult_sets_input w 0 results) as (_ & H & _).
    rewrite (H [{| isFinal := true; transcript := units "water " |}]
               [{| isFinal := false; transcript := units "the fe" |}]
               eq_refl eq_refl eq_refl).
    reflexivity.
  - destruct (onresult_sets_input w 5 results) as (_ & _ & H).
    apply H. cbn. lia.
Defined.

(** X27: starting the dictation empties the input, so that a recognition
    event that follows leaves in it the dictated text alone; a second
    press only asks the recognition to stop, and the listening state ends
    when the recognition reports its end, or with the next send.  Without
    a recognition object the button does nothing. *)
Theorem dictation_replaces_typed_text
  (w : World) (results : list SpeechResult) (c : N) (rest : jsstring)
  (Hidle : isListening w = false) (Hready : isLoading w = false)
  (Hspoken : trim (fst (transcripts results) ++ snd (transcripts results))
             = c :: rest) :
  let started := exec (handleToggleListening true) w in
  let heard := exec (onresult 0 results) started in
  handleToggleListening true w
  = (Normal (Some RecognitionStart), set_isListening true (set_userInput [] w))
  /\ handleToggleListening true started = (Normal (Some RecognitionStop), started)
  /\ isListening (exec onend started) = false
  /\ userInput heard
     = fst (transcripts results) ++ snd (transcripts results)
  /\ (exists handle,
        completion handleSendMessage heard
        = Normal (Some {| chat := handle; message := userInput heard |}))
  /\ isListening (exec handleSendMessage heard) = false
  /\ handleToggleListening false w = (Normal None, w).
Proof.
  intros started heard.
  assert (Hstart : handleToggleListening true w
                   = (Normal (Some RecognitionStart),
                      set_isListening true (set_userInput [] w))).
  { unfold handleToggleListening. run_handler. rewrite Hidle. reflexivity. }
  assert (Hstarted : started = set_isListening true (set_userInput [] w)).
  { unfold started, exec. rewrite Hstart. reflexivity. }
  assert (Hheard : userInput heard
                   = fst (transcripts results) ++ snd (transcripts results)).
  { unfold heard, onresult. cbn [skipn].
    destruct (transcripts results) as [f i]. reflexivity. }
  assert (Hheard_loading : isLoading heard = false).
  { unfold heard, onresult. cbn [skipn].
    destruct (transcripts results) as [f i]. rewrite Hstarted. exact Hready. }
  split; [exact Hstart|]. split.
  { rewrite Hstarted. reflexivity. }
  split; [reflexivity|]. split; [exact Hheard|].
  rewrite <- Hheard in Hspoken.
  destruct (handleSendMessage_sent heard c rest Hspoken Hheard_loading)
    as (Hrequest & _ & _ & _ & _ & Hlistening & _).
  split; [exists (sessionFor heard); exact Hrequest|].
  split; [exact Hlistening | reflexivity].
Qed.

Lemma dictation_replaces_typed_text_witness :
  let w := set_userInput (units "typed before")
             (set_messages [{| role := model; text := units "A fern." |}]
                (exec App_mount (mount 1000 None))) in
  let results := [{| isFinal := true; transcript := units "water it" |}] in
  let started := exec (handleToggleListening true) w in
  let heard := exec (onresult 0 results) started in
  (isListening w = false /\ isLoading w = false
   /\ trim (fst (transcripts results) ++ snd (transcripts results))
      = units "water it")
  /\ userInput heard = units "water it"
  /\ isListening (exec handleSendMessage heard) = false.
Proof.
  intros w results started heard.
  split; [split; [reflexivity | split; reflexivity]|].
  destruct (dictation_replaces_typed_text w results 119%N (units "ater it")
              eq_refl eq_refl eq_refl) as (_ & _ & _ & H4 & _ & H6 & _).
  split; [exact H4 | exact H6].
Defined.

(** ** The reply as it is drawn *)

Lemma removeAll_bold_pair (s : jsstring) :
  removeAll bold (42%N :: 42%N :: s) = removeAll bold s.
Proof. reflexivity. Qed.

Lemma removeAll_bold_other (c : N) (s : jsstring) :
  startsWith bold (c :: s) = false ->
  removeAll bold (c :: s) = c :: removeAll bold s.
Proof.
  intros H. unfold removeAll. cbn [removeAllFrom]. rewrite H. reflexivity.
Qed.

Lemma startsWith_bold (s : jsstring) :
  startsWith bold s = true <-> exists rest, s = 42%N :: 42%N :: rest.
Proof.
  unfold bold. split.
  - destruct s as [|c [|d rest]]; cbn [startsWith]; try discriminate.
    + rewrite andb_false_r. discriminate.
    + rewrite andb_true_r. intros H. apply andb_true_iff in H as [Hc Hd].
      apply N.eqb_eq in Hc, Hd. subst. exists rest. reflexivity.
  - intros [rest ->]. reflexivity.
Qed.

(** What does not start with an asterisk still does not after the
    removal. *)
Lemma removeAll_bold_head (s t : jsstring) :
  removeAll bold s = 42%N :: t -> exists rest, s = 42%N :: rest.
Proof.
  destruct s as [|c s]; [discriminate|].
  destruct (startsWith bold (c :: s)) eqn:Hstart.
  - apply startsWith_bold in Hstart as [rest Heq]. injection Heq as -> ->.
    intros _. eexists. reflexivity.
  - rewrite (removeAll_bold_other c s Hstart). intros H. injection H as -> _.
    eexists. reflexivity.
Qed.

Lemma removeAll_bold_noBold (s : jsstring) : noBold (removeAll bold s).
Proof.
  assert (Hall : forall n s, (length s <= n)%nat -> noBold (removeAll bold s)).
  { clear s. induction n as [|n IH]; intros s Hn.
    - destruct s; [|cbn in Hn; lia]. intros [|? ?] b H; discriminate H.
    - destruct s as [|c s]; [intros [|? ?] b H; discriminate H|].
      destruct (startsWith bold (c :: s)) eqn:Hstart.
      + apply startsWith_bold in Hstart as [rest Heq]. injection Heq as -> ->.
        rewrite removeAll_bold_pair. apply IH. cbn in Hn. lia.
      + rewrite (removeAll_bold_other c s Hstart). intros a b Heq.
        destruct a as [|d a].
        * cbn in Heq. injection Heq as -> Hrest.
          apply removeAll_bold_head in Hrest as [rest ->].
          cbn in Hstart. discriminate.
        * cbn in Heq. injection Heq as _ Hrest.
          apply (IH s ltac:(cbn in Hn; lia) a b Hrest). }
  apply (Hall (length s) s). lia.
Qed.

Lemma removeAll_bold_plain (title rest : jsstring) :
  noAsterisk title = true ->
  removeAll bold (title ++ rest) = title ++ removeAll bold rest.
Proof.
  induction title as [|c title IH]; cbn [noAsterisk forallb app]; intros H.
  - reflexivity.
  - apply andb_true_iff in H as [Hc Htitle]. apply negb_true_iff in Hc.
    rewrite removeAll_bold_other.
    + rewrite (IH Htitle). reflexivity.
    + unfold bold. cbn [startsWith]. rewrite N.eqb_sym, Hc. reflexivity.
Qed.

(** X28: a heading is drawn without any pair of asterisks, and only for a
    line that starts and ends with one; a line made of a title free of
    asterisks between two pairs gives the title. *)
Theorem heading_holds_no_bold (section : jsstring) :
  (forall content,
      formatSection section = Heading content ->
      noBold content
      /\ startsWith bold section = true /\ endsWith bold section = true)
  /\ (forall title,
        noAsterisk title = true ->
        formatSection (bold ++ title ++ bold) = Heading title).
Proof.
  split.
  - intros content. unfold formatSection.
    destruct (startsWith bold section && endsWith bold section) eqn:Hheading.
    + intros H. injection H as <-. apply andb_true_iff in Hheading.
      split; [apply removeAll_bold_noBold | exact Hheading].
    + destruct (startsWith boldBullet section); [discriminate|].
      destruct (startsWith bullet section); discriminate.
  - intros title Htitle. unfold formatSection.
    assert (Hstart : startsWith bold (bold ++ title ++ bold) = true)
      by reflexivity.
    assert (Hend : endsWith bold (bold ++ title ++ bold) = true).
    { unfold endsWith. rewrite !rev_app_distr, <- app_assoc. reflexivity. }
    rewrite Hstart, Hend. cbn [andb]. f_equal.
    change (bold ++ title ++ bold) with (42%N :: 42%N :: title ++ bold).
    rewrite removeAll_bold_pair, (removeAll_bold_plain title bold Htitle).
    cbn. apply app_nil_r.
Qed.

Lemma heading_holds_no_bold_witness :
  noAsterisk (units "Care") = true
  /\ formatSection (bold ++ units "Care" ++ bold) = Heading (units "Care")
  /\ noBold (units "Care").
Proof.
  split; [reflexivity|].
  destruct (heading_holds_no_bold (bold ++ units "Care" ++ bold)) as [H1 H2].
  split; [apply H2; reflexivity|].
  apply (H1 (units "Care")). apply H2. reflexivity.
Defined.

Lemma startsWith_labelEnd_plain (c : N) (s rest : jsstring) :
  noAsterisk s = true ->
  (forall d rest', rest = d :: rest' -> d <> 42%N) ->
  startsWith labelEnd (c :: s ++ rest) = false.
Proof.
  intros Hs Hrest. unfold labelEnd. cbn [startsWith].
  destruct (58 =? c)%N; [|reflexivity]. cbn [andb].
  destruct s as [|d s]; cbn [app].
  - destruct rest as [|d rest']; [reflexivity|].
    destruct (42 =? d)%N eqn:Hd; [|reflexivity].
    apply N.eqb_eq in Hd. exfalso. apply (Hrest d rest' eq_refl). congruence.
  - cbn [noAsterisk forallb] in Hs. apply andb_true_iff in Hs as [Hd _].
    apply negb_true_iff in Hd. rewrite N.eqb_sym, Hd. reflexivity.
Qed.

Lemma splitBy_labelEnd_plain (value : jsstring) :
  noAsterisk value = true -> splitBy labelEnd value = [value].
Proof.
  unfold splitBy.
  induction value as [|c value IH]; intros H; [reflexivity|].
  pose proof H as Hc. cbn [noAsterisk forallb] in Hc.
  apply andb_true_iff in Hc as [_ Hvalue].
  cbn [splitFrom].
  replace (startsWith labelEnd (c :: value)) with false.
  - rewrite (IH Hvalue). reflexivity.
  - symmetry. rewrite <- (app_nil_r value).
    apply startsWith_labelEnd_plain; [exact Hvalue|].
    intros d rest' Heq. discriminate Heq.
Qed.

Lemma splitBy_labelEnd_label (label rest : jsstring) :
  noAsterisk label = true ->
  splitBy labelEnd (label ++ labelEnd ++ rest)
  = label :: splitBy labelEnd rest.
Proof.
  unfold splitBy.
  induction label as [|c label IH]; intros H; [reflexivity|].
  pose proof H as Hc. cbn [noAsterisk forallb] in Hc.
  apply andb_true_iff in Hc as [_ Hlabel].
  cbn [app splitFrom].
  replace (startsWith labelEnd (c :: label ++ labelEnd ++ rest)) with false.
  - rewrite (IH Hlabel). reflexivity.
  - symmetry. apply startsWith_labelEnd_plain; [exact Hlabel|].
    intros d rest' Heq. injection Heq as <- _. discriminate.
Qed.

(** X29: a line of the care list, made of an asterisk, three spaces, a
    label in bold that ends with a colon and the text after it, is drawn
    as the label and that text, when label and text hold no asterisk;
    colons in them do no harm.  Without the end of the label the whole
    rest is the label and no text follows. *)
Theorem labelled_line_is_split
  (label value : jsstring)
  (Hlabel : noAsterisk label = true) (Hvalue : noAsterisk value = true) :
  formatSection (boldBullet ++ label ++ labelEnd ++ value)
  = Labelled label (Some value)
  /\ formatSection (boldBullet ++ label) = Labelled label None.
Proof.
  split.
  - unfold formatSection.
    change (startsWith bold (boldBullet ++ label ++ labelEnd ++ value))
      with false.
    change (startsWith boldBullet (boldBullet ++ label ++ labelEnd ++ value))
      with true.
    cbn [andb].
    change (removeFirst boldBullet (boldBullet ++ label ++ labelEnd ++ value))
      with (label ++ labelEnd ++ value).
    rewrite (splitBy_labelEnd_label label value Hlabel),
      (splitBy_labelEnd_plain value Hvalue).
    reflexivity.
  - unfold formatSection.
    change (startsWith bold (boldBullet ++ label)) with false.
    change (startsWith boldBullet (boldBullet ++ label)) with true.
    cbn [andb].
    change (removeFirst boldBullet (boldBullet ++ label)) with label.
    rewrite (splitBy_labelEnd_plain label Hlabel). reflexivity.
Qed.

Lemma labelled_line_is_split_witness :
  (noAsterisk (units "Light") = true
   /\ noAsterisk (units " bright: no sun") = true)
  /\ formatSection (boldBullet ++ units "Light" ++ labelEnd
                    ++ units " bright: no sun")
     = Labelled (units "Light") (Some (units " bright: no sun")).
Proof.
  split; [split; reflexivity|].
  destruct (labelled_line_is_split (units "Light") (units " bright: no sun")
              eq_refl eq_refl) as [H _].
  exact H.
Defined.

Lemma split_length (sep : N) (s : jsstring) :
  length (split sep s) = S (length (filter (fun c => (c =? sep)%N) s)).
Proof.
  induction s as [|c s IH]; [reflexivity|].
  cbn [split filter]. destruct (c =? sep)%N.
  - cbn [length]. rewrite IH. reflexivity.
  - destruct (split sep s) as [|piece pieces]; [discriminate IH|].
    cbn [length] in *. exact IH.
Qed.

(** X30: the reply is drawn line by line, one element for each line, one
    more than it has line feeds; a line that does not start with an
    asterisk, the empty line included, is a paragraph with the line
    unchanged. *)
Theorem reply_is_drawn_line_by_line (text : jsstring) :
  length (formattedText text)
  = S (length (filter (fun c => (c =? 10)%N) text))
  /\ (forall c rest, c <> 42%N ->
                     formatSection (c :: rest) = Paragraph (c :: rest))
  /\ formatSection [] = Paragraph [].
Proof.
  split; [|split].
  - unfold formattedText. rewrite length_map. apply split_length.
  - intros c rest Hc. apply N.eqb_neq in Hc. rewrite N.eqb_sym in Hc.
    unfold formatSection, bold, boldBullet, bullet. cbn [startsWith].
    rewrite Hc. reflexivity.
  - reflexivity.
Qed.

Lemma reply_is_drawn_line_by_line_witness :
  let text := units "A fern." ++ [10%N] ++ units "It likes shade." in
  104%N <> 42%N
  /\ length (formattedText text) = 2%nat
  /\ formatSection (units "hello") = Paragraph (units "hello").
Proof.
  intros text.
  assert (Hc : 104%N <> 42%N) by discriminate.
  split; [exact Hc|].
  destruct (reply_is_drawn_line_by_line text) as (H1 & H2 & _).
  split; [rewrite H1; reflexivity | apply (H2 104%N (units "ello") Hc)].
Defined.
